(** * Glicko-2 rating update ([glicko2.py]): model and properties

    The Python module computes with [float]s.  Numbers are modelled here as
    real numbers ([R]): rounding, overflow and underflow are outside the
    model.  What Python raises on real-valued inputs is kept: [/] raises
    [ZeroDivisionError] on a zero divisor, [math.sqrt] and [math.log] raise
    [ValueError] outside their domains, list indexing raises [IndexError].
    Division by the constants of the module ([SCALE], the class attribute
    [_tau] squared, the literal [2.0]) is written with plain real division
    (see [SCALE_neq_0] and [tau_sq]).

    The two [while] loops of [_newVol] have no counter in the source; they
    are modelled with a step budget ([fuel]), and [OutOfFuel] means that the
    loop is still running when the budget is used up. *)

From Stdlib Require Import Reals Lra Lia List ZArith Permutation.
Import ListNotations.
Local Open Scope R_scope.

(** ** Outcomes of a Python computation *)

Inductive exn : Set :=
| ZeroDivisionError
| ValueError
| IndexError.

Inductive result (A : Type) : Type :=
| Ok (a : A)
| Raise (e : exn)
| OutOfFuel.

Arguments Ok {A} a.
Arguments Raise {A} e.
Arguments OutOfFuel {A}.

Definition bind {A B : Type} (c : result A) (k : A -> result B) : result B :=
  match c with
  | Ok a => k a
  | Raise e => Raise e
  | OutOfFuel => OutOfFuel
  end.

Declare Scope py_scope.
Delimit Scope py_scope with py.
Notation "x <- c ;; k" := (bind c (fun x => k))
  (at level 61, c at next level, right associativity) : py_scope.
Local Open Scope py_scope.

(** ** Python primitives that can raise *)

(* x / y *)
Definition pydiv (x y : R) : result R :=
  if Req_dec_T y 0 then Raise ZeroDivisionError else Ok (x / y).

(* math.sqrt(x) *)
Definition pysqrt (x : R) : result R :=
  if Rlt_dec x 0 then Raise ValueError else Ok (sqrt x).

(* math.log(x) *)
Definition pylog (x : R) : result R :=
  if Rle_dec x 0 then Raise ValueError else Ok (ln x).

(* l[i] for i >= 0 *)
Definition index (l : list R) (i : nat) : result R :=
  match nth_error l i with
  | Some x => Ok x
  | None => Raise IndexError
  end.

(* for i in range(n): s = body(i, s) *)
Fixpoint for_range {S : Type} (ixs : list nat) (body : nat -> S -> result S)
  (s : S) : result S :=
  match ixs with
  | [] => Ok s
  | i :: ixs' => s' <- body i s ;; for_range ixs' body s'
  end.

Definition range (n : nat) : list nat := seq 0 n.

(** ** Scale conversion *)

Definition SCALE : R := 173.7178.

Definition rating_to_mu (rating : R) : R := (rating - 1500) / SCALE.
Definition mu_to_rating (mu : R) : R := (mu * SCALE) + 1500.
Definition rd_to_phi (rd : R) : R := rd / SCALE.
Definition phi_to_rd (phi : R) : R := phi * SCALE.

(** ** The player object *)

Record Player : Type := mkPlayer { mu : R; phi : R; vol : R }.

(* class attribute *)
Definition _tau : R := 0.5.

Definition getRating (self : Player) : R := mu_to_rating (mu self).
Definition getRd (self : Player) : R := phi_to_rd (phi self).

(** A method runs on [self] and leaves a (possibly assigned-to) [self]
    together with what it returned or raised.  Other players are passed by
    value: no method of the class assigns to an attribute of another
    object. *)
Definition Method (A : Type) : Type := Player -> Player * result A.

Definition mret {A : Type} (a : A) : Method A := fun self => (self, Ok a).

Definition mbind {A B : Type} (c : Method A) (k : A -> Method B) : Method B :=
  fun self =>
    match c self with
    | (self', Ok a) => k a self'
    | (self', Raise e) => (self', Raise e)
    | (self', OutOfFuel) => (self', OutOfFuel)
    end.

(* evaluation of an expression that only reads self *)
Definition eval {A : Type} (e : Player -> result A) : Method A :=
  fun self => (self, e self).

(* self.mu = x, self.phi = x, self.vol = x *)
Definition set_mu (x : R) : Method unit :=
  fun self => (mkPlayer x (phi self) (vol self), Ok tt).
Definition set_phi (x : R) : Method unit :=
  fun self => (mkPlayer (mu self) x (vol self), Ok tt).
Definition set_vol (x : R) : Method unit :=
  fun self => (mkPlayer (mu self) (phi self) x, Ok tt).

Notation "x <~ c ;; k" := (mbind c (fun x => k))
  (at level 61, c at next level, right associativity) : py_scope.
Notation "c ;;; k" := (mbind c (fun _ => k))
  (at level 61, right associativity) : py_scope.

Definition setRating (rating : R) : Method unit := set_mu (rating_to_mu rating).
Definition setRd (rd : R) : Method unit := set_phi (rd_to_phi rd).

(* Player(rating, rd, vol): the three assignments of __init__ on a new
   object, whose attributes do not exist before they are assigned *)
Definition __init__ (rating rd vol0 : R) : Player :=
  mkPlayer (rating_to_mu rating) (rd_to_phi rd) vol0.

Definition default_player : Player := __init__ 1500 350 0.06.

(** ** Estimation functions *)

Definition _g (RD : R) : result R :=
  q <- pydiv (3 * RD ^ 2) (PI ^ 2) ;;
  s <- pysqrt (1 + q) ;;
  pydiv 1 s.

Definition _E (self : Player) (p2mu p2phi : R) : result R :=
  g <- _g p2phi ;;
  pydiv 1 (1 + exp (-1 * g * (mu self - p2mu))).

Definition win_prob (other : Player) : Method R :=
  eval (fun self =>
    s <- pysqrt (phi self ^ 2 + phi other ^ 2) ;;
    g <- _g s ;;
    pydiv 1 (1 + exp (-1 * g * (mu self - mu other)))).

(* self.phi = math.sqrt(math.pow(self.phi, 2) + math.pow(self.vol, 2)) *)
Definition _preRatingRD : Method unit :=
  x <~ eval (fun self => pysqrt (phi self ^ 2 + vol self ^ 2)) ;;
  set_phi x.

Definition did_not_compete : Method unit := _preRatingRD.

(** ** Period aggregation *)

(* the body and the loop of _v *)
Definition _v_body (self : Player) (rating_list RD_list : list R)
  (i : nat) (tempSum : R) : result R :=
  r <- index rating_list i ;;
  d <- index RD_list i ;;
  tempE <- _E self r d ;;
  d' <- index RD_list i ;;
  g <- _g d' ;;
  Ok (tempSum + g ^ 2 * tempE * (1 - tempE)).

Definition _v (self : Player) (rating_list RD_list : list R) : result R :=
  tempSum <- for_range (range (length rating_list))
               (_v_body self rating_list RD_list) 0 ;;
  pydiv 1 tempSum.

(* the loop shared by _delta and the end of update_player:
   tempSum += self._g(RD_list[i]) * (outcome_list[i] - self._E(...)) *)
Definition score_body (self : Player) (rating_list RD_list outcome_list : list R)
  (i : nat) (tempSum : R) : result R :=
  d <- index RD_list i ;;
  g <- _g d ;;
  o <- index outcome_list i ;;
  r <- index rating_list i ;;
  d' <- index RD_list i ;;
  e <- _E self r d' ;;
  Ok (tempSum + g * (o - e)).

Definition score_sum (self : Player) (rating_list RD_list outcome_list : list R)
  : result R :=
  for_range (range (length rating_list))
    (score_body self rating_list RD_list outcome_list) 0.

Definition _delta (self : Player) (rating_list RD_list outcome_list : list R)
  (v : R) : result R :=
  tempSum <- score_sum self rating_list RD_list outcome_list ;;
  Ok (v * tempSum).

(** ** Volatility solver *)

Definition _f (self : Player) (x delta v a : R) : result R :=
  let ex := exp x in
  let num1 := ex * (delta ^ 2 - mu self ^ 2 - v - ex) in
  let denom1 := 2 * ((mu self ^ 2 + v + ex) ^ 2) in
  q <- pydiv num1 denom1 ;;
  Ok (q - ((x - a) / (_tau ^ 2))).

Definition eps : R := 0.000001.

(* step 2, else branch:
     while self._f(a - k * math.sqrt(tau**2), delta, v, a) < 0: k = k + 1
   returns the final k *)
Fixpoint bracket_search (fuel : nat) (self : Player) (delta v a : R) (k : Z)
  : result Z :=
  match fuel with
  | O => OutOfFuel
  | S fuel' =>
      s <- pysqrt (_tau ^ 2) ;;
      fx <- _f self (a - IZR k * s) delta v a ;;
      if Rlt_dec fx 0
      then bracket_search fuel' self delta v a (k + 1)%Z
      else Ok k
  end.

(* step 4: while math.fabs(B - A) > eps: ...   returns the final A *)
Fixpoint refine (fuel : nat) (self : Player) (delta v a : R)
  (A B fA fB : R) : result R :=
  match fuel with
  | O => OutOfFuel
  | S fuel' =>
      if Rgt_dec (Rabs (B - A)) eps then
        q <- pydiv ((A - B) * fA) (fB - fA) ;;
        let C := A + q in
        fC <- _f self C delta v a ;;
        if Rlt_dec (fC * fB) 0
        then refine fuel' self delta v a B C fB fC
        else refine fuel' self delta v a A C (fA / 2) fC
      else Ok A
  end.

Definition _newVol (fuel : nat) (self : Player)
  (rating_list RD_list outcome_list : list R) (v : R) : result R :=
  (* step 1 *)
  a <- pylog (vol self ^ 2) ;;
  let A := a in
  (* step 2 *)
  delta <- _delta self rating_list RD_list outcome_list v ;;
  B <- (if Rgt_dec (delta ^ 2) (phi self ^ 2 + v)
        then pylog (delta ^ 2 - phi self ^ 2 - v)
        else
          k <- bracket_search fuel self delta v a 1 ;;
          s <- pysqrt (_tau ^ 2) ;;
          Ok (a - IZR k * s)) ;;
  (* step 3 *)
  fA <- _f self A delta v a ;;
  fB <- _f self B delta v a ;;
  (* step 4 *)
  A' <- refine fuel self delta v a A B fA fB ;;
  (* step 5 *)
  Ok (exp (A' / 2)).

(** ** Update *)

Definition update_player (fuel : nat) (rating_list RD_list outcome_list : list R)
  : Method unit :=
  let rating_list := map rating_to_mu rating_list in
  let RD_list := map rd_to_phi RD_list in
  v <~ eval (fun self => _v self rating_list RD_list) ;;
  vol' <~ eval (fun self =>
             _newVol fuel self rating_list RD_list outcome_list v) ;;
  set_vol vol' ;;;
  _preRatingRD ;;;
  phi' <~ eval (fun self =>
             x <- pydiv 1 (phi self ^ 2) ;;
             y <- pydiv 1 v ;;
             s <- pysqrt (x + y) ;;
             pydiv 1 s) ;;
  set_phi phi' ;;;
  tempSum <~ eval (fun self =>
                score_sum self rating_list RD_list outcome_list) ;;
  mu' <~ eval (fun self => Ok (mu self + phi self ^ 2 * tempSum)) ;;
  set_mu mu'.

(** ** Closed forms used in the statements

    These are the formulas of the rating system written directly over the
    reals, to be compared with what the methods above compute. *)

Definition g_val (p : R) : R := 1 / sqrt (1 + 3 * p ^ 2 / PI ^ 2).

Definition E_val (m p2mu p2phi : R) : R :=
  1 / (1 + exp (-1 * g_val p2phi * (m - p2mu))).

Definition widen (p s : R) : R := sqrt (p ^ 2 + s ^ 2).

Definition Rsum (l : list R) : R := fold_right Rplus 0 l.

(** One game of a period on the public scale: opponent rating, opponent
    deviation, score. *)
Definition game : Type := (R * R * R)%type.

Definition g_rating (x : game) : R := fst (fst x).
Definition g_rd (x : game) : R := snd (fst x).
Definition g_score (x : game) : R := snd x.

Definition ratings (l : list game) : list R := map g_rating l.
Definition rds (l : list game) : list R := map g_rd l.
Definition scores (l : list game) : list R := map g_score l.

(* g(opp_phi)^2 * E * (1 - E) for one game, E taken at the rating m *)
Definition var_term (m : R) (x : game) : R :=
  let e := E_val m (rating_to_mu (g_rating x)) (rd_to_phi (g_rd x)) in
  g_val (rd_to_phi (g_rd x)) ^ 2 * e * (1 - e).

(* g(opp_phi) * (score - E) for one game, E taken at the rating m *)
Definition score_term (m : R) (x : game) : R :=
  g_val (rd_to_phi (g_rd x))
  * (g_score x - E_val m (rating_to_mu (g_rating x)) (rd_to_phi (g_rd x))).

Definition v_val (m : R) (l : list game) : R := 1 / Rsum (map (var_term m) l).

(** The function whose root the published Glicko-2 procedure looks for,
    with the squared deviation [p ^ 2] of the player. *)
Definition f_canonical (p tau delta v a x : R) : R :=
  exp x * (delta ^ 2 - p ^ 2 - v - exp x) / (2 * (p ^ 2 + v + exp x) ^ 2)
  - (x - a) / tau ^ 2.

(** The state that section 4.7 of the specification prescribes after an
    update with the games [l], once the solver has produced [vol']: every
    [E] is taken at the rating [mu self] of the competitor before the
    call. *)
Definition spec_update (self : Player) (l : list game) (vol' : R) : Player :=
  let v := 1 / Rsum (map (var_term (mu self)) l) in
  let phi_widened := sqrt (phi self ^ 2 + vol' ^ 2) in
  let phi_new := 1 / sqrt (1 / phi_widened ^ 2 + 1 / v) in
  let mu_new := mu self + phi_new ^ 2 * Rsum (map (score_term (mu self)) l) in
  mkPlayer mu_new phi_new vol'.

(** ** Concrete players and games used below *)

(* rating 1500, deviation 173.7178 (phi = 1), volatility 1 *)
Definition p_unit : Player := __init__ 1500 173.7178 1.

(* rating 1500, deviation 694.8712 (phi = 4), volatility 4 *)
Definition p_wide : Player := __init__ 1500 694.8712 4.

(* rating 1500, deviation 173.7178 (phi = 1), volatility about 1.8644 *)
Definition vol_stuck : R := exp ((ln (7 / 2) - 7 / 1024) / 2).
Definition p_stuck : Player := __init__ 1500 173.7178 vol_stuck.

(* an opponent rated ln 2 above 1500 on the internal scale, with deviation
   0, who is beaten *)
Definition game_win : game := (1500 + SCALE * ln 2, 0, 1).

(* an opponent rated 1500 with deviation 0, and the score 2 *)
Definition game_score_2 : game := (1500, 0, 2).

(* rating 1500, deviation 260.5767 (phi = 3/2), volatility 3/2 *)
Definition p_even : Player := __init__ 1500 260.5767 1.5.

(* an opponent rated ln 2 below 1500 on the internal scale, with deviation
   0, to whom the game is lost *)
Definition game_loss : game := (1500 - SCALE * ln 2, 0, 0).

(** A caller's loop over idle rating periods:
    [for _ in range(n): self.did_not_compete()]. *)
Fixpoint did_not_compete_n (n : nat) : Method unit :=
  match n with
  | O => mret tt
  | S n' => did_not_compete ;;; did_not_compete_n n'
  end.

(** ** Basic facts *)

Lemma SCALE_pos : 0 < SCALE.
Proof. unfold SCALE; lra. Qed.

Lemma SCALE_neq_0 : SCALE <> 0.
Proof. unfold SCALE; lra. Qed.

Lemma tau_sq : _tau ^ 2 = 0.25.
Proof. unfold _tau; lra. Qed.

Lemma pydiv_ok (x y : R) : y <> 0 -> pydiv x y = Ok (x / y).
Proof.
  intros Hy; unfold pydiv.
  destruct (Req_dec_T y 0) as [E | _]; [contradiction | reflexivity].
Qed.

Lemma pydiv_zero (x : R) : pydiv x 0 = Raise ZeroDivisionError.
Proof.
  unfold pydiv.
  destruct (Req_dec_T 0 0) as [_ | N]; [reflexivity | now elim N].
Qed.

Lemma pysqrt_ok (x : R) : 0 <= x -> pysqrt x = Ok (sqrt x).
Proof.
  intros Hx; unfold pysqrt.
  destruct (Rlt_dec x 0) as [L | _]; [lra | reflexivity].
Qed.

Lemma pylog_ok (x : R) : 0 < x -> pylog x = Ok (ln x).
Proof.
  intros Hx; unfold pylog.
  destruct (Rle_dec x 0) as [L | _]; [lra | reflexivity].
Qed.

Lemma sq_nonneg (x : R) : 0 <= x ^ 2.
Proof. apply pow2_ge_0. Qed.

Lemma PI_sq_pos : 0 < PI ^ 2.
Proof. pose proof PI_RGT_0; nra. Qed.

Lemma g_arg_ge_1 (p : R) : 1 <= 1 + 3 * p ^ 2 / PI ^ 2.
Proof.
  pose proof PI_sq_pos as HP. pose proof (sq_nonneg p) as Hp.
  assert (0 <= 3 * p ^ 2 / PI ^ 2).
  { apply Rmult_le_pos; [lra | left; now apply Rinv_0_lt_compat]. }
  lra.
Qed.

Lemma g_val_pos (p : R) : 0 < g_val p.
Proof.
  unfold g_val. pose proof (g_arg_ge_1 p).
  apply Rdiv_lt_0_compat; [lra | apply sqrt_lt_R0; lra].
Qed.

Lemma _g_ok (RD : R) : _g RD = Ok (g_val RD).
Proof.
  unfold _g, g_val. pose proof PI_sq_pos. pose proof (g_arg_ge_1 RD).
  rewrite pydiv_ok by lra. cbn [bind].
  rewrite pysqrt_ok by lra. cbn [bind].
  apply pydiv_ok.
  assert (0 < sqrt (1 + 3 * RD ^ 2 / PI ^ 2)) by (apply sqrt_lt_R0; lra).
  lra.
Qed.

Lemma logistic_bounds (t : R) : 0 < 1 / (1 + exp t) < 1.
Proof.
  pose proof (exp_pos t) as He.
  split.
  - apply Rdiv_lt_0_compat; lra.
  - apply (Rmult_lt_reg_r (1 + exp t)); [lra |].
    unfold Rdiv. rewrite Rmult_assoc, Rinv_l by lra. lra.
Qed.

Lemma E_val_bounds (m p2mu p2phi : R) : 0 < E_val m p2mu p2phi < 1.
Proof. apply logistic_bounds. Qed.

Lemma _E_ok (self : Player) (p2mu p2phi : R) :
  _E self p2mu p2phi = Ok (E_val (mu self) p2mu p2phi).
Proof.
  unfold _E, E_val. rewrite _g_ok. cbn [bind].
  apply pydiv_ok. pose proof (exp_pos (-1 * g_val p2phi * (mu self - p2mu))).
  lra.
Qed.

Lemma var_term_pos (m : R) (x : game) : 0 < var_term m x.
Proof.
  unfold var_term. cbv zeta.
  pose proof (E_val_bounds m (rating_to_mu (g_rating x)) (rd_to_phi (g_rd x))).
  pose proof (g_val_pos (rd_to_phi (g_rd x))).
  apply Rmult_lt_0_compat; [apply Rmult_lt_0_compat |]; try lra.
  apply pow_lt; assumption.
Qed.

(** ** The [for] loops as sums *)

Lemma for_range_ext {S : Type} (ixs : list nat) (b1 b2 : nat -> S -> result S) :
  (forall i s, In i ixs -> b1 i s = b2 i s) ->
  forall s, for_range ixs b1 s = for_range ixs b2 s.
Proof.
  induction ixs as [| i ixs IH]; intros Hb s; cbn [for_range]; [reflexivity |].
  rewrite (Hb i s) by (left; reflexivity).
  destruct (b2 i s) as [s' | e |]; cbn [bind]; try reflexivity.
  apply IH. intros j t Hj. apply Hb. right; exact Hj.
Qed.

Lemma for_range_sum (term : nat -> R) (ixs : list nat)
  (body : nat -> R -> result R) :
  (forall i s, In i ixs -> body i s = Ok (s + term i)) ->
  forall s, for_range ixs body s = Ok (s + Rsum (map term ixs)).
Proof.
  induction ixs as [| i ixs IH]; intros Hb s; cbn [for_range map Rsum fold_right].
  - f_equal; lra.
  - rewrite (Hb i s) by (left; reflexivity). cbn [bind].
    rewrite IH by (intros j t Hj; apply Hb; right; exact Hj).
    f_equal. unfold Rsum. lra.
Qed.

Lemma index_map {X : Type} (f : X -> R) (l : list X) (i : nat) (d : X) :
  (i < length l)%nat -> index (map f l) i = Ok (f (nth i l d)).
Proof.
  intros Hi. unfold index.
  rewrite nth_error_map, (nth_error_nth' l d Hi). reflexivity.
Qed.

Lemma index_out (l : list R) (i : nat) :
  (length l <= i)%nat -> index l i = Raise IndexError.
Proof.
  intros Hi. unfold index.
  destruct (nth_error l i) eqn:E; [| reflexivity].
  apply nth_error_None in Hi. congruence.
Qed.

Lemma index_in (l : list R) (i : nat) :
  (i < length l)%nat -> exists x, index l i = Ok x.
Proof.
  intros Hi. unfold index.
  destruct (nth_error l i) eqn:E; [eauto |].
  apply nth_error_None in E. lia.
Qed.

Lemma map_nth_seq {X Y : Type} (F : X -> Y) (l : list X) (d : X) :
  map (fun i => F (nth i l d)) (seq 0 (length l)) = map F l.
Proof.
  induction l as [| x l IH]; [reflexivity |].
  cbn [length seq map nth]. f_equal.
  rewrite <- seq_shift, map_map. exact IH.
Qed.

Lemma Rsum_perm (l1 l2 : list R) : Permutation l1 l2 -> Rsum l1 = Rsum l2.
Proof.
  induction 1 as [| x l1 l2 _ IH | x y l | l1 l2 l3 _ IH1 _ IH2];
    unfold Rsum in *; cbn [fold_right]; lra.
Qed.

Lemma Rsum_pos (l : list R) :
  (forall x, In x l -> 0 < x) -> l <> [] -> 0 < Rsum l.
Proof.
  destruct l as [| x l]; [congruence |]. intros Hp _.
  assert (H0 : forall l', (forall y, In y l' -> 0 < y) -> 0 <= Rsum l').
  { induction l' as [| y l' IH]; intros Hl; unfold Rsum; cbn [fold_right];
      [lra |].
    assert (0 < y) by (apply Hl; left; reflexivity).
    assert (0 <= Rsum l') by (apply IH; intros z Hz; apply Hl; right; exact Hz).
    unfold Rsum in *. lra. }
  unfold Rsum; cbn [fold_right].
  assert (0 < x) by (apply Hp; left; reflexivity).
  assert (0 <= Rsum l) by (apply H0; intros z Hz; apply Hp; right; exact Hz).
  unfold Rsum in *. lra.
Qed.

Lemma var_sum_pos (m : R) (l : list game) :
  l <> [] -> 0 < Rsum (map (var_term m) l).
Proof.
  intros Hl. apply Rsum_pos.
  - intros x Hx. apply in_map_iff in Hx. destruct Hx as [y [<- _]].
    apply var_term_pos.
  - destruct l; [congruence | discriminate].
Qed.

Section Aligned.
(** The three lists handed to [update_player] come from one list of
    games. *)
Variable self : Player.
Variable l : list game.

Let rating_list := map rating_to_mu (ratings l).
Let RD_list := map rd_to_phi (rds l).
Let d0 : game := (0, 0, 0).

Lemma _v_body_games (i : nat) (s : R) :
  (i < length l)%nat ->
  _v_body self rating_list RD_list i s
  = Ok (s + var_term (mu self) (nth i l d0)).
Proof.
  intros Hi. unfold _v_body, rating_list, RD_list, ratings, rds.
  rewrite !map_map.
  rewrite (index_map (fun x => rating_to_mu (g_rating x)) l i d0 Hi).
  rewrite (index_map (fun x => rd_to_phi (g_rd x)) l i d0 Hi).
  cbn [bind]. rewrite _E_ok, _g_ok. cbn [bind]. reflexivity.
Qed.

Lemma _v_games :
  _v self rating_list RD_list = pydiv 1 (Rsum (map (var_term (mu self)) l)).
Proof.
  unfold _v.
  rewrite (for_range_sum (fun i => var_term (mu self) (nth i l d0))).
  - cbn [bind]. unfold rating_list, ratings, range.
    rewrite !length_map, (map_nth_seq (var_term (mu self)) l d0).
    f_equal. lra.
  - intros i s Hi. apply _v_body_games.
    unfold rating_list, ratings, range in Hi.
    rewrite !length_map in Hi. apply in_seq in Hi. lia.
Qed.

Lemma score_body_games (i : nat) (s : R) :
  (i < length l)%nat ->
  score_body self rating_list RD_list (scores l) i s
  = Ok (s + score_term (mu self) (nth i l d0)).
Proof.
  intros Hi. unfold score_body, rating_list, RD_list, ratings, rds, scores.
  rewrite !map_map.
  rewrite (index_map (fun x => rd_to_phi (g_rd x)) l i d0 Hi).
  cbn [bind]. rewrite _g_ok. cbn [bind].
  rewrite (index_map g_score l i d0 Hi).
  rewrite (index_map (fun x => rating_to_mu (g_rating x)) l i d0 Hi).
  cbn [bind]. rewrite _E_ok. cbn [bind]. reflexivity.
Qed.

Lemma score_sum_games :
  score_sum self rating_list RD_list (scores l)
  = Ok (Rsum (map (score_term (mu self)) l)).
Proof.
  unfold score_sum.
  rewrite (for_range_sum (fun i => score_term (mu self) (nth i l d0))).
  - unfold rating_list, ratings, range.
    rewrite !length_map, (map_nth_seq (score_term (mu self)) l d0).
    f_equal. lra.
  - intros i s Hi. apply score_body_games.
    unfold rating_list, ratings, range in Hi.
    rewrite !length_map in Hi. apply in_seq in Hi. lia.
Qed.
End Aligned.

(** ** Scale conversion and prediction *)

(** C8: the public and internal scales are exchanged by exact inverse
    maps: [mu_to_rating] undoes [rating_to_mu] and [phi_to_rd] undoes
    [rd_to_phi] at every real, and the same holds in the other direction, so
    both pairs are bijections and nothing is clamped. *)
Theorem C8_scale_roundtrip (r d : R) :
  mu_to_rating (rating_to_mu r) = r /\
  phi_to_rd (rd_to_phi d) = d /\
  rating_to_mu (mu_to_rating r) = r /\
  rd_to_phi (phi_to_rd d) = d.
Proof.
  pose proof SCALE_neq_0 as HS.
  unfold mu_to_rating, rating_to_mu, phi_to_rd, rd_to_phi.
  repeat split; field; exact HS.
Qed.

Lemma win_prob_ok (self other : Player) :
  win_prob other self
  = (self,
     Ok (1 / (1 + exp (- g_val (sqrt (phi self ^ 2 + phi other ^ 2))
                        * (mu self - mu other))))).
Proof.
  unfold win_prob, eval. f_equal.
  pose proof (sq_nonneg (phi self)). pose proof (sq_nonneg (phi other)).
  rewrite pysqrt_ok by lra. cbn [bind]. rewrite _g_ok. cbn [bind].
  replace (-1 * g_val (sqrt (phi self ^ 2 + phi other ^ 2)) * (mu self - mu other))
    with (- g_val (sqrt (phi self ^ 2 + phi other ^ 2)) * (mu self - mu other))
    by lra.
  apply pydiv_ok.
  pose proof (exp_pos (- g_val (sqrt (phi self ^ 2 + phi other ^ 2))
                       * (mu self - mu other))).
  lra.
Qed.

(** C7: for all competitors A and B, [A.win_prob(B)] returns
    [1 / (1 + exp(-g(sqrt(A.phi^2 + B.phi^2)) * (A.mu - B.mu)))], with the
    combined deviation of both; the value is strictly between 0 and 1; A is
    left as it was (B is only read). *)
Theorem C7_win_prob_formula (A B : Player) :
  let p := 1 / (1 + exp (- g_val (sqrt (phi A ^ 2 + phi B ^ 2))
                          * (mu A - mu B))) in
  win_prob B A = (A, Ok p) /\ 0 < p < 1.
Proof.
  cbv zeta. split; [apply win_prob_ok | apply logistic_bounds].
Qed.

(** C9: a competitor built with the default parameters (1500, 350, 0.06)
    has [win_prob] 0.5 against itself, and against any other competitor
    built with the same defaults. *)
Theorem C9_default_self_half :
  win_prob default_player default_player = (default_player, Ok 0.5) /\
  win_prob (__init__ 1500 350 0.06) (__init__ 1500 350 0.06)
  = (__init__ 1500 350 0.06, Ok 0.5).
Proof.
  assert (H : win_prob default_player default_player = (default_player, Ok 0.5)).
  { rewrite win_prob_ok. do 2 f_equal.
    replace (mu default_player - mu default_player) with 0 by lra.
    rewrite Rmult_0_r, exp_0. lra. }
  split; exact H.
Qed.

(** C10: for all competitors A and B, [A.win_prob(B)] and [B.win_prob(A)]
    both return, and the two values add up to 1. *)
Theorem C10_win_prob_complement (A B : Player) :
  exists pa pb : R,
    win_prob B A = (A, Ok pa) /\ win_prob A B = (B, Ok pb) /\ pa + pb = 1.
Proof.
  do 2 eexists. split; [apply win_prob_ok |]. split; [apply win_prob_ok |].
  replace (phi B ^ 2 + phi A ^ 2) with (phi A ^ 2 + phi B ^ 2) by lra.
  set (g := g_val (sqrt (phi A ^ 2 + phi B ^ 2))).
  replace (- g * (mu B - mu A)) with (- (- g * (mu A - mu B))) by lra.
  set (t := - g * (mu A - mu B)).
  rewrite exp_Ropp. pose proof (exp_pos t) as Ht.
  field. split; lra.
Qed.

(** ** Decay *)

Lemma widen_gt (p s : R) : 0 <= p -> s <> 0 -> p < widen p s.
Proof.
  intros Hp Hs. unfold widen.
  rewrite <- (sqrt_pow2 p Hp) at 1.
  apply sqrt_lt_1.
  - apply sq_nonneg.
  - pose proof (sq_nonneg p). pose proof (sq_nonneg s). lra.
  - assert (0 < s ^ 2) by (destruct (Rtotal_order s 0) as [L | [E | G]]; nra).
    lra.
Qed.

Lemma _preRatingRD_ok (self : Player) :
  _preRatingRD self
  = (mkPlayer (mu self) (widen (phi self) (vol self)) (vol self), Ok tt).
Proof.
  unfold _preRatingRD, mbind, eval, set_phi, widen.
  pose proof (sq_nonneg (phi self)). pose proof (sq_nonneg (vol self)).
  rewrite pysqrt_ok by lra. reflexivity.
Qed.

(** C5: for a competitor with positive deviation and positive volatility,
    [did_not_compete] returns normally, sets the deviation to
    [sqrt(phi^2 + vol^2)] (on the public scale: that value times SCALE),
    which is strictly larger than before, and leaves the rating and the
    volatility as they were. *)
Theorem C5_decay (self : Player) :
  0 < phi self -> 0 < vol self ->
  exists self' : Player,
    did_not_compete self = (self', Ok tt) /\
    phi self' = sqrt (phi self ^ 2 + vol self ^ 2) /\
    getRd self' = sqrt (phi self ^ 2 + vol self ^ 2) * SCALE /\
    getRd self < getRd self' /\
    mu self' = mu self /\
    getRating self' = getRating self /\
    vol self' = vol self.
Proof.
  intros Hp Hv. eexists. split; [apply _preRatingRD_ok |].
  unfold getRd, getRating, phi_to_rd. cbn [phi mu vol].
  repeat split.
  apply Rmult_lt_compat_r; [apply SCALE_pos |].
  apply widen_gt; lra.
Qed.

Lemma C5_decay_witness :
  0 < phi default_player /\ 0 < vol default_player /\
  exists self' : Player,
    did_not_compete default_player = (self', Ok tt) /\
    phi self' = sqrt (phi default_player ^ 2 + vol default_player ^ 2) /\
    getRd self' = sqrt (phi default_player ^ 2 + vol default_player ^ 2) * SCALE /\
    getRd default_player < getRd self' /\
    mu self' = mu default_player /\
    getRating self' = getRating default_player /\
    vol self' = vol default_player.
Proof.
  assert (Hp : 0 < phi default_player).
  { cbn. unfold rd_to_phi, SCALE. lra. }
  assert (Hv : 0 < vol default_player) by (cbn; lra).
  split; [exact Hp |]. split; [exact Hv |].
  exact (C5_decay default_player Hp Hv).
Defined.

(** ** Update in closed form *)

Lemma _newVol_pos fuel self rl rdl ol v r :
  _newVol fuel self rl rdl ol v = Ok r -> 0 < r.
Proof.
  unfold _newVol. intros H.
  repeat match type of H with
  | bind ?c _ = Ok _ => destruct c; cbn [bind] in H; try discriminate
  end.
  inversion H. apply exp_pos.
Qed.

Lemma widen_pos (p s : R) : 0 < s -> 0 < widen p s.
Proof.
  intros Hs. unfold widen. apply sqrt_lt_R0.
  pose proof (sq_nonneg p). assert (0 < s ^ 2) by nra. lra.
Qed.

Lemma combine_ok (pw v : R) :
  0 < pw -> 0 < v ->
  (x <- pydiv 1 (pw ^ 2) ;; y <- pydiv 1 v ;; s <- pysqrt (x + y) ;; pydiv 1 s)
  = Ok (1 / sqrt (1 / pw ^ 2 + 1 / v)).
Proof.
  intros Hp Hv.
  assert (H2 : 0 < pw ^ 2) by nra.
  assert (Hx : 0 < 1 / pw ^ 2) by (apply Rdiv_lt_0_compat; lra).
  assert (Hy : 0 < 1 / v) by (apply Rdiv_lt_0_compat; lra).
  rewrite pydiv_ok by lra. cbn [bind].
  rewrite pydiv_ok by lra. cbn [bind].
  rewrite pysqrt_ok by lra. cbn [bind].
  apply pydiv_ok.
  assert (0 < sqrt (1 / pw ^ 2 + 1 / v)) by (apply sqrt_lt_R0; lra).
  lra.
Qed.

Lemma v_val_pos (m : R) (l : list game) : l <> [] -> 0 < v_val m l.
Proof.
  intros Hl. pose proof (var_sum_pos m l Hl).
  unfold v_val. apply Rdiv_lt_0_compat; lra.
Qed.

Lemma update_player_games fuel self l :
  l <> [] ->
  update_player fuel (ratings l) (rds l) (scores l) self
  = match _newVol fuel self (map rating_to_mu (ratings l))
            (map rd_to_phi (rds l)) (scores l) (v_val (mu self) l) with
    | Ok vol' => (spec_update self l vol', Ok tt)
    | Raise e => (self, Raise e)
    | OutOfFuel => (self, OutOfFuel)
    end.
Proof.
  intros Hl. pose proof (var_sum_pos (mu self) l Hl) as HS.
  pose proof (v_val_pos (mu self) l Hl) as Hv.
  unfold update_player, mbind, eval.
  rewrite _v_games, pydiv_ok by lra. fold (v_val (mu self) l).
  destruct (_newVol fuel self _ _ _ _) as [vol' | e |] eqn:HV; try reflexivity.
  apply _newVol_pos in HV.
  unfold set_vol. rewrite _preRatingRD_ok. cbn [mu phi vol].
  rewrite combine_ok by (try apply widen_pos; assumption).
  unfold set_phi. cbn [mu phi vol].
  rewrite score_sum_games. cbn [mu phi vol].
  unfold set_mu, spec_update, widen, v_val. reflexivity.
Qed.

(** ** The solver *)

Lemma sqrt_tau_sq : sqrt (_tau ^ 2) = 0.5.
Proof. unfold _tau. rewrite sqrt_pow2 by lra. reflexivity. Qed.

Lemma pysqrt_tau : pysqrt (_tau ^ 2) = Ok 0.5.
Proof.
  rewrite pysqrt_ok by (apply sq_nonneg). now rewrite sqrt_tau_sq.
Qed.

Lemma _f_ok (self : Player) (x delta v a : R) :
  mu self ^ 2 + v + exp x <> 0 ->
  _f self x delta v a = Ok (f_canonical (mu self) _tau delta v a x).
Proof.
  intros Hd. unfold _f, f_canonical. cbv zeta.
  rewrite pydiv_ok; [reflexivity |].
  assert (0 < (mu self ^ 2 + v + exp x) ^ 2).
  { destruct (Rtotal_order (mu self ^ 2 + v + exp x) 0) as [L | [E | G]];
      [| contradiction |]; nra. }
  lra.
Qed.

Lemma _f_zero_div (self : Player) (x delta v a : R) :
  mu self ^ 2 + v + exp x = 0 ->
  _f self x delta v a = Raise ZeroDivisionError.
Proof.
  intros Hd. unfold _f. cbv zeta. rewrite Hd.
  replace (2 * 0 ^ 2) with 0 by lra. now rewrite pydiv_zero.
Qed.

Lemma _f_raises (self : Player) (x delta v a : R) (e : exn) :
  _f self x delta v a = Raise e -> e = ZeroDivisionError.
Proof.
  destruct (Req_dec_T (mu self ^ 2 + v + exp x) 0) as [Z | N].
  - rewrite _f_zero_div by exact Z. congruence.
  - rewrite _f_ok by exact N. discriminate.
Qed.

(* the fraction of f lies above -1/2 when mu^2 + v >= 0 *)
Lemma f_fraction_lower (s delta ex : R) :
  0 <= s -> 0 < ex ->
  - (1 / 2) <= ex * (delta ^ 2 - s - ex) / (2 * (s + ex) ^ 2).
Proof.
  intros Hs He.
  assert (Hd : 0 < 2 * (s + ex) ^ 2) by nra.
  apply (Rmult_le_reg_r (2 * (s + ex) ^ 2)); [exact Hd |].
  unfold Rdiv. rewrite Rmult_assoc, Rinv_l by lra.
  pose proof (sq_nonneg delta). nra.
Qed.

Lemma bracket_search_first (fuel : nat) (self : Player) (delta v a : R) :
  0 <= v -> bracket_search (S fuel) self delta v a 1 = Ok 1%Z.
Proof.
  intros Hv. cbn [bracket_search]. rewrite pysqrt_tau. cbn [bind].
  pose proof (exp_pos (a - 1 * 0.5)) as He.
  pose proof (sq_nonneg (mu self)) as Hm.
  rewrite _f_ok by lra. cbn [bind].
  destruct (Rlt_dec _ 0) as [L | _]; [| reflexivity].
  exfalso. unfold f_canonical in L.
  pose proof (f_fraction_lower (mu self ^ 2 + v) delta (exp (a - 1 * 0.5))
                ltac:(lra) He) as Hf.
  replace (delta ^ 2 - mu self ^ 2 - v - exp (a - 1 * 0.5))
    with (delta ^ 2 - (mu self ^ 2 + v) - exp (a - 1 * 0.5)) in L by lra.
  rewrite tau_sq in L. lra.
Qed.

Lemma refine_done (fuel : nat) (self : Player) (delta v a A B fA fB : R) :
  Rabs (B - A) <= eps ->
  refine (S fuel) self delta v a A B fA fB = Ok A.
Proof.
  intros H. cbn [refine].
  destruct (Rgt_dec (Rabs (B - A)) eps) as [G | _]; [lra | reflexivity].
Qed.

(* once f(B) = 0 with fA <> 0, every step recomputes C = B and halves fA *)
Lemma refine_stuck (self : Player) (delta v a A B : R) :
  Rabs (B - A) > eps ->
  _f self B delta v a = Ok 0 ->
  forall (fuel : nat) (fA : R),
    fA <> 0 -> refine fuel self delta v a A B fA 0 = OutOfFuel.
Proof.
  intros Hgap HfB. induction fuel as [| fuel IH]; intros fA HfA;
    [reflexivity |].
  cbn [refine].
  destruct (Rgt_dec (Rabs (B - A)) eps) as [_ | N]; [| contradiction].
  rewrite pydiv_ok by lra. cbn [bind].
  replace (A + (A - B) * fA / (0 - fA)) with B by (field; lra).
  rewrite HfB. cbn [bind].
  destruct (Rlt_dec (0 * 0) 0) as [L | _]; [lra |].
  apply IH. lra.
Qed.

(** The solver on the lists of a period, when step 2 takes its first
    branch. *)
Lemma _newVol_first_branch (fuel : nat) (self : Player) (l : list game)
  (v delta D : R) :
  vol self <> 0 -> 0 <= v -> 0 < D ->
  v * Rsum (map (score_term (mu self)) l) = delta ->
  delta ^ 2 - phi self ^ 2 - v = D ->
  let a := ln (vol self ^ 2) in
  _newVol fuel self (map rating_to_mu (ratings l)) (map rd_to_phi (rds l))
    (scores l) v
  = (A' <- refine fuel self delta v a a (ln D)
             (f_canonical (mu self) _tau delta v a a)
             (f_canonical (mu self) _tau delta v a (ln D)) ;;
     Ok (exp (A' / 2))).
Proof.
  intros Hvol Hv HD Hdelta HDeq a. unfold _newVol.
  assert (0 < vol self ^ 2).
  { destruct (Rtotal_order (vol self) 0) as [L | [E | G]];
      [| contradiction |]; nra. }
  rewrite pylog_ok by assumption. cbn [bind]. fold a.
  unfold _delta. rewrite score_sum_games. cbn [bind]. rewrite Hdelta.
  destruct (Rgt_dec (delta ^ 2) (phi self ^ 2 + v)) as [_ | N]; [| lra].
  rewrite HDeq, pylog_ok by exact HD. cbn [bind].
  pose proof (sq_nonneg (mu self)).
  pose proof (exp_pos a). pose proof (exp_pos (ln D)).
  rewrite !_f_ok by lra. cbn [bind]. reflexivity.
Qed.

(** *** Values at the concrete inputs *)

Lemma g_val_0 : g_val 0 = 1.
Proof.
  unfold g_val. replace (1 + 3 * 0 ^ 2 / PI ^ 2) with 1.
  - rewrite sqrt_1. lra.
  - unfold Rdiv. lra.
Qed.

Lemma rating_to_mu_1500 : rating_to_mu 1500 = 0.
Proof. unfold rating_to_mu, Rdiv. lra. Qed.

Lemma rd_to_phi_0 : rd_to_phi 0 = 0.
Proof. unfold rd_to_phi, Rdiv. lra. Qed.

Lemma score_term_game_win : score_term 0 game_win = 2 / 3.
Proof.
  unfold score_term, game_win, g_rd, g_score, g_rating, E_val. cbn [fst snd].
  rewrite rd_to_phi_0, g_val_0.
  replace (rating_to_mu (1500 + SCALE * ln 2)) with (ln 2)
    by (unfold rating_to_mu; field; apply SCALE_neq_0).
  replace (-1 * 1 * (0 - ln 2)) with (ln 2) by lra.
  rewrite exp_ln by lra. lra.
Qed.

Lemma var_term_game_win : var_term 0 game_win = 2 / 9.
Proof.
  unfold var_term, game_win, g_rd, g_score, g_rating, E_val. cbn [fst snd].
  rewrite rd_to_phi_0, g_val_0.
  replace (rating_to_mu (1500 + SCALE * ln 2)) with (ln 2)
    by (unfold rating_to_mu; field; apply SCALE_neq_0).
  replace (-1 * 1 * (0 - ln 2)) with (ln 2) by lra.
  rewrite exp_ln by lra. lra.
Qed.

Lemma v_val_game_win : v_val 0 [game_win] = 9 / 2.
Proof.
  unfold v_val, Rsum. cbn [map fold_right]. rewrite var_term_game_win. lra.
Qed.

Lemma mu_1500 (rd v0 : R) : mu (__init__ 1500 rd v0) = 0.
Proof. cbn [__init__ mu]. apply rating_to_mu_1500. Qed.

Lemma mu_p_stuck : mu p_stuck = 0.
Proof. apply mu_1500. Qed.

Lemma phi_p_stuck : phi p_stuck = 1.
Proof. cbn. unfold rd_to_phi, SCALE. lra. Qed.

Lemma vol_stuck_sq : vol_stuck ^ 2 = exp (ln (7 / 2) - 7 / 1024).
Proof.
  unfold vol_stuck. cbn [pow]. rewrite Rmult_1_r, <- exp_plus.
  f_equal. lra.
Qed.

Lemma newVol_stuck (fuel : nat) :
  _newVol fuel p_stuck (map rating_to_mu (ratings [game_win]))
    (map rd_to_phi (rds [game_win])) (scores [game_win]) (9 / 2)
  = OutOfFuel.
Proof.
  assert (Hvs : 0 < vol_stuck) by apply exp_pos.
  rewrite (_newVol_first_branch fuel p_stuck [game_win] (9 / 2) 3 (7 / 2)).
  - cbv zeta. change (vol p_stuck) with vol_stuck.
    rewrite vol_stuck_sq, ln_exp, mu_p_stuck.
    set (a := ln (7 / 2) - 7 / 1024).
    assert (HfB : f_canonical 0 _tau 3 (9 / 2) a (ln (7 / 2)) = 0).
    { unfold f_canonical. rewrite exp_ln, tau_sq by lra. unfold a. lra. }
    rewrite HfB, refine_stuck; [reflexivity | | | ].
    + unfold a, eps.
      replace (ln (7 / 2) - (ln (7 / 2) - 7 / 1024)) with (7 / 1024) by lra.
      rewrite Rabs_right by lra. lra.
    + rewrite _f_ok.
      * rewrite mu_p_stuck, HfB. reflexivity.
      * rewrite mu_p_stuck, exp_ln by lra. lra.
    + unfold f_canonical. rewrite tau_sq.
      assert (He : 0 < exp a) by apply exp_pos.
      assert (Hlt : exp a < 7 / 2).
      { assert (exp a < exp (ln (7 / 2)))
          by (apply exp_increasing; unfold a; lra).
        rewrite exp_ln in * by lra. assumption. }
      replace ((a - a) / 0.25) with 0 by (unfold Rdiv; lra).
      assert (0 < exp a * (3 ^ 2 - 0 ^ 2 - 9 / 2 - exp a)) by nra.
      assert (0 < 2 * (0 ^ 2 + 9 / 2 + exp a) ^ 2) by nra.
      assert (0 < exp a * (3 ^ 2 - 0 ^ 2 - 9 / 2 - exp a)
                  / (2 * (0 ^ 2 + 9 / 2 + exp a) ^ 2))
        by (apply Rdiv_lt_0_compat; assumption).
      lra.
  - change (vol p_stuck) with vol_stuck. lra.
  - lra.
  - lra.
  - rewrite mu_p_stuck. unfold Rsum. cbn [map fold_right].
    rewrite score_term_game_win. lra.
  - rewrite phi_p_stuck. lra.
Qed.

Lemma _newVol_immediate (fuel : nat) (self : Player) (l : list game)
  (v delta : R) :
  vol self <> 0 -> 0 <= v ->
  v * Rsum (map (score_term (mu self)) l) = delta ->
  delta ^ 2 - phi self ^ 2 - v = vol self ^ 2 ->
  _newVol (S fuel) self (map rating_to_mu (ratings l)) (map rd_to_phi (rds l))
    (scores l) v
  = Ok (exp (ln (vol self ^ 2) / 2)).
Proof.
  intros Hvol Hv Hdelta HD.
  assert (0 < vol self ^ 2).
  { destruct (Rtotal_order (vol self) 0) as [L | [E | G]];
      [| contradiction |]; nra. }
  rewrite (_newVol_first_branch (S fuel) self l v delta (vol self ^ 2))
    by assumption.
  cbv zeta. rewrite refine_done; [reflexivity |].
  replace (ln (vol self ^ 2) - ln (vol self ^ 2)) with 0 by lra.
  rewrite Rabs_R0. unfold eps. lra.
Qed.

Lemma score_term_score_2 : score_term 0 game_score_2 = 3 / 2.
Proof.
  unfold score_term, game_score_2, g_rd, g_score, g_rating, E_val.
  cbn [fst snd].
  rewrite rd_to_phi_0, g_val_0, rating_to_mu_1500.
  replace (-1 * 1 * (0 - 0)) with 0 by lra.
  rewrite exp_0. lra.
Qed.

Lemma var_term_score_2 : var_term 0 game_score_2 = 1 / 4.
Proof.
  unfold var_term, game_score_2, g_rd, g_score, g_rating, E_val.
  cbn [fst snd].
  rewrite rd_to_phi_0, g_val_0, rating_to_mu_1500.
  replace (-1 * 1 * (0 - 0)) with 0 by lra.
  rewrite exp_0. lra.
Qed.

Lemma v_val_score_2 : v_val 0 [game_score_2] = 4.
Proof.
  unfold v_val, Rsum. cbn [map fold_right]. rewrite var_term_score_2. lra.
Qed.

Lemma mu_p_wide : mu p_wide = 0.
Proof. apply mu_1500. Qed.

Lemma phi_p_wide : phi p_wide = 4.
Proof. cbn. unfold rd_to_phi, SCALE. lra. Qed.

Lemma mu_p_even : mu p_even = 0.
Proof. apply mu_1500. Qed.

Lemma phi_p_even : phi p_even = 1.5.
Proof. cbn. unfold rd_to_phi, SCALE. lra. Qed.

Lemma update_stuck (fuel : nat) :
  update_player fuel [1500 + SCALE * ln 2] [0] [1] p_stuck
  = (p_stuck, OutOfFuel).
Proof.
  change (update_player fuel (ratings [game_win]) (rds [game_win])
            (scores [game_win]) p_stuck = (p_stuck, OutOfFuel)).
  rewrite update_player_games by discriminate.
  rewrite mu_p_stuck, v_val_game_win, newVol_stuck. reflexivity.
Qed.

Lemma update_score_2 :
  update_player 1 [1500] [0] [2] p_wide
  = (spec_update p_wide [game_score_2] (exp (ln (4 ^ 2) / 2)), Ok tt).
Proof.
  change (update_player 1 (ratings [game_score_2]) (rds [game_score_2])
            (scores [game_score_2]) p_wide
          = (spec_update p_wide [game_score_2] (exp (ln (4 ^ 2) / 2)), Ok tt)).
  rewrite update_player_games by discriminate.
  rewrite mu_p_wide, v_val_score_2.
  rewrite (_newVol_immediate 0 p_wide [game_score_2] 4 6).
  - reflexivity.
  - cbn. lra.
  - lra.
  - rewrite mu_p_wide. unfold Rsum. cbn [map fold_right].
    rewrite score_term_score_2. lra.
  - rewrite phi_p_wide. cbn [vol p_wide __init__]. lra.
Qed.

Lemma spec_update_mu_moves (self : Player) (l : list game) (vol' : R) :
  l <> [] -> 0 < vol' -> 0 < Rsum (map (score_term (mu self)) l) ->
  mu self < mu (spec_update self l vol').
Proof.
  intros Hl Hv Hs. unfold spec_update. cbv zeta. cbn [mu].
  pose proof (v_val_pos (mu self) l Hl) as Hvv. unfold v_val in Hvv.
  pose proof (widen_pos (phi self) vol' Hv) as Hw. unfold widen in Hw.
  set (pw := sqrt (phi self ^ 2 + vol' ^ 2)) in *.
  set (v := 1 / Rsum (map (var_term (mu self)) l)) in *.
  assert (0 < pw ^ 2) by nra.
  assert (0 < 1 / pw ^ 2) by (apply Rdiv_lt_0_compat; lra).
  assert (0 < 1 / v) by (apply Rdiv_lt_0_compat; lra).
  assert (0 < sqrt (1 / pw ^ 2 + 1 / v)) by (apply sqrt_lt_R0; lra).
  assert (0 < 1 / sqrt (1 / pw ^ 2 + 1 / v)) by (apply Rdiv_lt_0_compat; lra).
  set (pn := 1 / sqrt (1 / pw ^ 2 + 1 / v)) in *.
  assert (0 < pn ^ 2) by nra.
  assert (0 < pn ^ 2 * Rsum (map (score_term (mu self)) l))
    by (apply Rmult_lt_0_compat; assumption).
  lra.
Qed.

(** ** Where [update_player] can raise *)

Lemma _v_body_mono (self : Player) (rl rdl : list R) (i : nat) (s s' : R) :
  _v_body self rl rdl i s = Ok s' -> s <= s'.
Proof.
  unfold _v_body.
  destruct (index rl i) as [r | e |]; cbn [bind]; try discriminate.
  destruct (index rdl i) as [d | e |]; cbn [bind]; try discriminate.
  rewrite _E_ok, _g_ok. cbn [bind]. intros H. inversion H.
  pose proof (E_val_bounds (mu self) r d). pose proof (g_val_pos d).
  assert (0 <= g_val d ^ 2) by apply sq_nonneg.
  assert (0 <= g_val d ^ 2 * E_val (mu self) r d)
    by (apply Rmult_le_pos; lra).
  assert (0 <= g_val d ^ 2 * E_val (mu self) r d * (1 - E_val (mu self) r d))
    by (apply Rmult_le_pos; lra).
  lra.
Qed.

Lemma for_range_mono (ixs : list nat) (body : nat -> R -> result R) :
  (forall i s s', body i s = Ok s' -> s <= s') ->
  forall s s', for_range ixs body s = Ok s' -> s <= s'.
Proof.
  intros Hb. induction ixs as [| i ixs IH]; intros s s'; cbn [for_range].
  - intros H. inversion H. lra.
  - destruct (body i s) as [s1 | e |] eqn:E1; cbn [bind]; try discriminate.
    intros H. apply Hb in E1. apply IH in H. lra.
Qed.

Lemma _v_pos (self : Player) (rl rdl : list R) (v : R) :
  _v self rl rdl = Ok v -> 0 < v.
Proof.
  unfold _v.
  destruct (for_range _ _ 0) as [t | e |] eqn:E; cbn [bind]; try discriminate.
  apply for_range_mono in E; [| intros i s s'; apply _v_body_mono].
  unfold pydiv. destruct (Req_dec_T t 0) as [Z | N]; [discriminate |].
  intros H. inversion H. apply Rdiv_lt_0_compat; lra.
Qed.

Lemma score_sum_mu (s1 s2 : Player) (rl rdl ol : list R) :
  mu s1 = mu s2 -> score_sum s1 rl rdl ol = score_sum s2 rl rdl ol.
Proof.
  intros Hm. unfold score_sum. apply for_range_ext.
  intros i s _. unfold score_body, _E. rewrite Hm. reflexivity.
Qed.

Lemma _newVol_ok_score_sum fuel self rl rdl ol v r :
  _newVol fuel self rl rdl ol v = Ok r ->
  exists t, score_sum self rl rdl ol = Ok t.
Proof.
  unfold _newVol, _delta.
  destruct (pylog _) as [a | e |]; cbn [bind]; try discriminate.
  destruct (score_sum self rl rdl ol) as [t | e |]; cbn [bind];
    try discriminate.
  eauto.
Qed.

(** Either the update runs to its end, or it stops in [_v] or in [_newVol],
    that is before the first assignment, with [self] as it was. *)
Lemma update_player_atomic (fuel : nat) (rl rdl ol : list R) (self : Player) :
  (exists self', update_player fuel rl rdl ol self = (self', Ok tt)) \/
  (exists e, update_player fuel rl rdl ol self = (self, Raise e)) \/
  update_player fuel rl rdl ol self = (self, OutOfFuel).
Proof.
  unfold update_player, mbind, eval.
  destruct (_v self _ _) as [v | e |] eqn:Ev; [| right; left; eauto | now right; right].
  destruct (_newVol fuel self _ _ _ v) as [vol' | e |] eqn:En;
    [| right; left; eauto | now right; right].
  left. apply _v_pos in Ev.
  destruct (_newVol_ok_score_sum _ _ _ _ _ _ _ En) as [t Ht].
  apply _newVol_pos in En.
  unfold set_vol. rewrite _preRatingRD_ok. cbn [mu phi vol].
  rewrite combine_ok by (try apply widen_pos; assumption).
  unfold set_phi. cbn [mu phi vol].
  erewrite score_sum_mu by (cbn [mu]; reflexivity).
  rewrite Ht. unfold set_mu. eauto.
Qed.

Lemma update_player_empty (fuel : nat) (rdl ol : list R) (self : Player) :
  update_player fuel [] rdl ol self = (self, Raise ZeroDivisionError).
Proof.
  unfold update_player, mbind, eval, _v. cbn [map length range seq for_range bind].
  rewrite pydiv_zero. reflexivity.
Qed.

Lemma _v_short_RD (self : Player) (rl rdl : list R) :
  (length rdl < length rl)%nat -> _v self rl rdl = Raise IndexError.
Proof.
  intros Hlen. unfold _v.
  assert (H : forall n k s,
             (k <= length rdl < k + n)%nat -> (k + n <= length rl)%nat ->
             for_range (seq k n) (_v_body self rl rdl) s = Raise IndexError).
  { induction n as [| n IH]; intros k s Hk Hn; [lia |].
    cbn [seq for_range]. unfold _v_body at 1.
    destruct (index_in rl k ltac:(lia)) as [r ->]. cbn [bind].
    destruct (Nat.eq_dec k (length rdl)) as [-> | Hne].
    - rewrite index_out by lia. reflexivity.
    - destruct (index_in rdl k ltac:(lia)) as [d Hd]. rewrite Hd. cbn [bind].
      rewrite _E_ok, _g_ok. cbn [bind]. apply IH; lia. }
  unfold range. rewrite H by lia. reflexivity.
Qed.

Lemma refine_raises (fuel : nat) (self : Player) (delta v a : R) :
  forall (A B fA fB : R) (e : exn),
    refine fuel self delta v a A B fA fB = Raise e -> e = ZeroDivisionError.
Proof.
  induction fuel as [| fuel IH]; intros A B fA fB e; cbn [refine];
    [discriminate |].
  destruct (Rgt_dec (Rabs (B - A)) eps) as [_ | _]; [| discriminate].
  unfold pydiv at 1.
  destruct (Req_dec_T (fB - fA) 0) as [_ | _]; cbn [bind]; [congruence |].
  destruct (_f self _ delta v a) as [fC | e' |] eqn:Ef; cbn [bind].
  - destruct (Rlt_dec (fC * fB) 0); apply IH.
  - intros H. inversion H. subst e'. eapply _f_raises. exact Ef.
  - discriminate.
Qed.

Lemma _newVol_delta_only (fuel : nat) (self : Player)
  (rl rdl ol rl' rdl' ol' : list R) (v : R) :
  _delta self rl rdl ol v = _delta self rl' rdl' ol' v ->
  _newVol fuel self rl rdl ol v = _newVol fuel self rl' rdl' ol' v.
Proof. unfold _newVol. intros ->. reflexivity. Qed.

Lemma games_perm_sums (m : R) (l1 l2 : list game) :
  Permutation l1 l2 ->
  Rsum (map (var_term m) l1) = Rsum (map (var_term m) l2) /\
  Rsum (map (score_term m) l1) = Rsum (map (score_term m) l2).
Proof.
  intros HP. split; apply Rsum_perm, Permutation_map, HP.
Qed.

(** ** The claims about the solver and the update *)

(** C1: the squared term inside [_f].  At the player with rating 1500,
    deviation 173.7178 (so mu = 0 and phi = 1) and the arguments x = 0,
    delta = 0, v = 1, a = 0, [_f] returns -1/4, the value of the formula
    with mu^2 = 0 as the squared term, whereas the formula of the
    specification, with phi^2 = 1, gives -1/6. *)
Theorem C1_f_squares_mu :
  _f p_unit 0 0 1 0 = Ok (- (1 / 4)) /\
  _f p_unit 0 0 1 0 = Ok (f_canonical (mu p_unit) _tau 0 1 0 0) /\
  f_canonical (phi p_unit) _tau 0 1 0 0 = - (1 / 6).
Proof.
  assert (Hm : mu p_unit = 0) by apply mu_1500.
  assert (Hp : phi p_unit = 1) by (cbn; unfold rd_to_phi, SCALE; lra).
  assert (Hf : _f p_unit 0 0 1 0 = Ok (f_canonical (mu p_unit) _tau 0 1 0 0)).
  { apply _f_ok. rewrite Hm, exp_0. lra. }
  split; [| split]; [| exact Hf |].
  - rewrite Hf, Hm. unfold f_canonical. rewrite exp_0, tau_sq. f_equal. lra.
  - rewrite Hp. unfold f_canonical. rewrite exp_0, tau_sq. lra.
Qed.

(** C2, as the code has it: neither loop of the solver has an iteration
    bound and no convergence error exists.  The bracket search of step 2
    stops at its first test, with k = 1, whenever v >= 0.  The refinement
    loop of step 4 can raise nothing but [ZeroDivisionError], and there is
    a competitor with a one-game period and v > 0 on which it is still
    running after any number of steps. *)
Theorem C2_solver_loops :
  (forall (fuel : nat) (self : Player) (delta v a : R),
      0 <= v -> bracket_search (S fuel) self delta v a 1 = Ok 1%Z) /\
  (forall (fuel : nat) (self : Player) (delta v a A B fA fB : R) (e : exn),
      refine fuel self delta v a A B fA fB = Raise e ->
      e = ZeroDivisionError) /\
  (exists (self : Player) (l : list game) (v : R),
      0 < v /\
      forall fuel : nat,
        _newVol fuel self (map rating_to_mu (ratings l))
          (map rd_to_phi (rds l)) (scores l) v = OutOfFuel).
Proof.
  split; [| split].
  - intros. now apply bracket_search_first.
  - intros. eapply refine_raises. eassumption.
  - exists p_stuck, [game_win], (9 / 2). split; [lra | apply newVol_stuck].
Qed.

Lemma C2_solver_loops_witness :
  (0 <= 1 /\ bracket_search 1 default_player 0 1 0 1 = Ok 1%Z) /\
  (refine 1 default_player 0 1 0 0 1 1 1 = Raise ZeroDivisionError /\
   ZeroDivisionError = ZeroDivisionError).
Proof.
  destruct C2_solver_loops as [Hb [Hr _]].
  assert (H01 : 0 <= 1) by lra.
  assert (Hz : refine 1 default_player 0 1 0 0 1 1 1 = Raise ZeroDivisionError).
  { cbn [refine].
    destruct (Rgt_dec (Rabs (1 - 0)) eps) as [_ | N].
    - replace (1 - 1) with 0 by lra. rewrite pydiv_zero. reflexivity.
    - exfalso. apply N. unfold eps. rewrite Rabs_right; lra. }
  split; split.
  - exact H01.
  - exact (Hb 0%nat default_player 0 1 0 H01).
  - exact Hz.
  - exact (Hr 1%nat default_player 0 1 0 0 1 1 1 ZeroDivisionError Hz).
Defined.

(** C2, as stated, fails: for the competitor [p_stuck] and one won game
    against an opponent rated [1500 + SCALE * ln 2] with deviation 0, the
    solver (called with v = 9/2, the value [_v] computes) never returns and
    never raises, whatever the number of steps, and so does
    [update_player]. *)
Lemma C2_solver_runs_forever :
  (forall fuel : nat,
      _newVol fuel p_stuck (map rating_to_mu [1500 + SCALE * ln 2])
        (map rd_to_phi [0]) [1] (9 / 2) = OutOfFuel) /\
  (forall fuel : nat,
      update_player fuel [1500 + SCALE * ln 2] [0] [1] p_stuck
      = (p_stuck, OutOfFuel)).
Proof.
  split; intros fuel; [exact (newVol_stuck fuel) | apply update_stuck].
Qed.

(** C3, as the code has it: [update_player] checks neither the scores nor
    the lengths of its lists.  For every competitor and all lists, the call
    either runs to its end, or raises in [_v] or [_newVol], before its first
    assignment, and then leaves the competitor exactly as it was (as it does
    while the solver is still looping).  An empty rating list raises
    [ZeroDivisionError] from the zero denominator of [_v], and a deviation
    list shorter than the rating list raises [IndexError]. *)
Theorem C3_update_atomic (fuel : nat) (rl rdl ol : list R) (self : Player) :
  ((exists self', update_player fuel rl rdl ol self = (self', Ok tt)) \/
   (exists e, update_player fuel rl rdl ol self = (self, Raise e)) \/
   update_player fuel rl rdl ol self = (self, OutOfFuel)) /\
  update_player fuel [] rdl ol self = (self, Raise ZeroDivisionError) /\
  ((length rdl < length rl)%nat ->
   update_player fuel rl rdl ol self = (self, Raise IndexError)).
Proof.
  split; [apply update_player_atomic |].
  split; [apply update_player_empty |].
  intros Hlen. unfold update_player, mbind, eval.
  rewrite _v_short_RD by (rewrite !length_map; exact Hlen). reflexivity.
Qed.

Lemma C3_update_atomic_witness :
  (length (@nil R) < length [1500])%nat /\
  update_player 0 [1500] [] [1] default_player
  = (default_player, Raise IndexError).
Proof.
  assert (H : (length (@nil R) < length [1500])%nat) by (cbn; lia).
  split; [exact H |].
  exact (proj2 (proj2 (C3_update_atomic 0 [1500] [] [1] default_player)) H).
Defined.

(** C3, as stated, fails: with the score 2, which is not one of 0, 0.5
    and 1, [update_player] raises nothing and changes the rating. *)
Lemma C3_score_2_accepted :
  exists self' : Player,
    update_player 1 [1500] [0] [2] p_wide = (self', Ok tt) /\
    getRating p_wide < getRating self'.
Proof.
  eexists. split; [apply update_score_2 |].
  unfold getRating, mu_to_rating.
  assert (mu p_wide < mu (spec_update p_wide [game_score_2] (exp (ln (4 ^ 2) / 2)))).
  { apply spec_update_mu_moves.
    - discriminate.
    - apply exp_pos.
    - rewrite mu_p_wide. unfold Rsum. cbn [map fold_right].
      rewrite score_term_score_2. lra. }
  pose proof SCALE_pos. nra.
Qed.

(** C4: for every non-empty list of games, [update_player] hands the
    solver the competitor as it is before the call (deviation not yet
    widened) together with [v = 1 / sum g^2 E (1 - E)]; when the solver
    returns [vol'], the call ends with volatility [vol'], deviation
    [1 / sqrt (1 / widened^2 + 1 / v)] for [widened = sqrt (phi^2 + vol'^2)],
    and rating [mu + phi_new^2 * sum g (score - E)], every [E] being taken at
    the rating before the call; when the solver raises or keeps running, the
    competitor is as before. *)
Theorem C4_update_order (fuel : nat) (self : Player) (l : list game) :
  l <> [] ->
  update_player fuel (ratings l) (rds l) (scores l) self
  = match _newVol fuel self (map rating_to_mu (ratings l))
            (map rd_to_phi (rds l)) (scores l)
            (1 / Rsum (map (var_term (mu self)) l)) with
    | Ok vol' => (spec_update self l vol', Ok tt)
    | Raise e => (self, Raise e)
    | OutOfFuel => (self, OutOfFuel)
    end.
Proof. apply update_player_games. Qed.

Lemma C4_update_order_witness :
  [game_win] <> [] /\
  update_player 1 (ratings [game_win]) (rds [game_win]) (scores [game_win])
    p_even
  = (spec_update p_even [game_win] (exp (ln (vol p_even ^ 2) / 2)), Ok tt).
Proof.
  assert (Hne : [game_win] <> []) by discriminate.
  split; [exact Hne |].
  rewrite (C4_update_order 1 p_even [game_win] Hne).
  fold (v_val (mu p_even) [game_win]).
  rewrite mu_p_even, v_val_game_win.
  rewrite (_newVol_immediate 0 p_even [game_win] (9 / 2) 3).
  - reflexivity.
  - cbn. lra.
  - lra.
  - rewrite mu_p_even. unfold Rsum. cbn [map fold_right].
    rewrite score_term_game_win. lra.
  - rewrite phi_p_even. cbn [vol p_even __init__]. lra.
Defined.

(** C6: for every competitor, reordering the games of a period does not
    change what [update_player] does: the same final rating, deviation and
    volatility, or the same exception, for each permutation of the list. *)
Theorem C6_update_order_independent (fuel : nat) (self : Player)
  (l1 l2 : list game) :
  Permutation l1 l2 ->
  update_player fuel (ratings l1) (rds l1) (scores l1) self
  = update_player fuel (ratings l2) (rds l2) (scores l2) self.
Proof.
  intros HP.
  destruct l1 as [| x l1'].
  { apply Permutation_nil in HP. subst l2. reflexivity. }
  assert (H2 : l2 <> []).
  { intros ->. apply Permutation_sym, Permutation_nil in HP. discriminate. }
  destruct (games_perm_sums (mu self) _ _ HP) as [Hv Hs].
  rewrite !update_player_games by (assumption || discriminate).
  unfold v_val, spec_update. rewrite Hv, Hs.
  rewrite (_newVol_delta_only fuel self _ _ _
             (map rating_to_mu (ratings l2)) (map rd_to_phi (rds l2))
             (scores l2)).
  - reflexivity.
  - unfold _delta. rewrite !score_sum_games, Hs. reflexivity.
Qed.

Lemma C6_update_order_independent_witness :
  Permutation [(1400, 30, 1); (1550, 100, 0)] [(1550, 100, 0); (1400, 30, 1)] /\
  update_player 10 [1400; 1550] [30; 100] [1; 0] default_player
  = update_player 10 [1550; 1400] [100; 30] [0; 1] default_player.
Proof.
  assert (HP : Permutation [((1400, 30, 1) : game); (1550, 100, 0)]
                 [(1550, 100, 0); (1400, 30, 1)]) by apply perm_swap.
  split; [exact HP |].
  exact (C6_update_order_independent 10 default_player _ _ HP).
Defined.

(** * Further properties of the module *)

(** ** Estimation functions *)

Lemma g_val_le_1 (p : R) : g_val p <= 1.
Proof.
  unfold g_val. pose proof (g_arg_ge_1 p) as H.
  assert (H1 : 1 <= sqrt (1 + 3 * p ^ 2 / PI ^ 2)).
  { rewrite <- sqrt_1 at 1. apply sqrt_le_1_alt. exact H. }
  apply (Rmult_le_reg_r (sqrt (1 + 3 * p ^ 2 / PI ^ 2))); [lra |].
  unfold Rdiv. rewrite Rmult_assoc, Rinv_l by lra. lra.
Qed.

Lemma g_val_even (p : R) : g_val (- p) = g_val p.
Proof. unfold g_val. replace ((- p) ^ 2) with (p ^ 2) by lra. reflexivity. Qed.

Lemma g_val_decreasing (p1 p2 : R) :
  0 <= p1 < p2 -> g_val p2 < g_val p1.
Proof.
  intros [H0 H12]. unfold g_val.
  pose proof (g_arg_ge_1 p1) as G1. pose proof PI_sq_pos as HP.
  assert (Hlt : 1 + 3 * p1 ^ 2 / PI ^ 2 < 1 + 3 * p2 ^ 2 / PI ^ 2).
  { apply Rplus_lt_compat_l. unfold Rdiv.
    apply Rmult_lt_compat_r; [now apply Rinv_0_lt_compat | nra]. }
  assert (Hs : sqrt (1 + 3 * p1 ^ 2 / PI ^ 2) < sqrt (1 + 3 * p2 ^ 2 / PI ^ 2)).
  { apply sqrt_lt_1_alt. lra. }
  assert (Hp : 0 < sqrt (1 + 3 * p1 ^ 2 / PI ^ 2)) by (apply sqrt_lt_R0; lra).
  unfold Rdiv. rewrite !Rmult_1_l.
  apply Rinv_lt_contravar; [nra | exact Hs].
Qed.

(** X1: [_g] never raises; its value lies in (0, 1], is 1 at deviation 0,
    and does not depend on the sign of the deviation. *)
Theorem X1_g_range (RD : R) :
  exists g : R,
    _g RD = Ok g /\ _g (- RD) = Ok g /\ 0 < g <= 1 /\ _g 0 = Ok 1.
Proof.
  exists (g_val RD). rewrite !_g_ok, g_val_even, g_val_0.
  repeat split; [apply g_val_pos | apply g_val_le_1].
Qed.

(** X2: on non-negative deviations [_g] is strictly decreasing: a more
    uncertain opponent weighs less. *)
Theorem X2_g_decreasing (RD1 RD2 : R) :
  0 <= RD1 < RD2 ->
  exists g1 g2 : R, _g RD1 = Ok g1 /\ _g RD2 = Ok g2 /\ g2 < g1.
Proof.
  intros H. exists (g_val RD1), (g_val RD2). rewrite !_g_ok.
  repeat split. now apply g_val_decreasing.
Qed.

Lemma X2_g_decreasing_witness :
  0 <= 0 < 350 /\
  exists g1 g2 : R, _g 0 = Ok g1 /\ _g 350 = Ok g2 /\ g2 < g1.
Proof.
  assert (H : 0 <= 0 < 350) by lra.
  split; [exact H | exact (X2_g_decreasing 0 350 H)].
Defined.

Lemma logistic_half (t : R) : (1 / 2 < 1 / (1 + exp t) <-> t < 0).
Proof.
  pose proof (exp_pos t) as He.
  assert (Hi : (1 + exp t) * / (1 + exp t) = 1) by (apply Rinv_r; lra).
  unfold Rdiv. rewrite Rmult_1_l.
  set (y := 1 + exp t) in *. set (i := / y) in *.
  split; intros H.
  - apply exp_lt_inv. rewrite exp_0. assert (y < 2) by nra. unfold y in *. lra.
  - assert (exp t < 1) by (rewrite <- exp_0; now apply exp_increasing).
    assert (y < 2) by (unfold y; lra). assert (0 < y) by (unfold y; lra).
    nra.
Qed.

Lemma logistic_complement (t : R) :
  1 / (1 + exp t) + 1 / (1 + exp (- t)) = 1.
Proof.
  rewrite exp_Ropp. pose proof (exp_pos t). field. split; lra.
Qed.

(** X3: [_E] never raises and its value lies strictly between 0 and 1; it
    exceeds 1/2 exactly when the player's rating is above the opponent's,
    and it is 1/2 against an opponent of the same rating. *)
Theorem X3_E_range (self : Player) (p2mu p2phi : R) :
  exists e : R,
    _E self p2mu p2phi = Ok e /\ 0 < e < 1 /\
    (1 / 2 < e <-> p2mu < mu self) /\
    (p2mu = mu self -> e = 1 / 2).
Proof.
  exists (E_val (mu self) p2mu p2phi). rewrite _E_ok.
  split; [reflexivity |]. split; [apply E_val_bounds |].
  pose proof (g_val_pos p2phi) as Hg. unfold E_val. split.
  - rewrite logistic_half. split; intros H; nra.
  - intros ->. replace (-1 * g_val p2phi * (mu self - mu self)) with 0 by lra.
    rewrite exp_0. lra.
Qed.

(** X4: expected scores are complementary: what [_E] gives a player
    against an opponent's rating and what it gives the opponent against the
    player's rating, for the same deviation argument, add up to 1. *)
Theorem X4_E_complement (A B : Player) (p2phi : R) :
  exists ea eb : R,
    _E A (mu B) p2phi = Ok ea /\ _E B (mu A) p2phi = Ok eb /\ ea + eb = 1.
Proof.
  do 2 eexists. rewrite !_E_ok. repeat split. unfold E_val.
  replace (-1 * g_val p2phi * (mu B - mu A))
    with (- (-1 * g_val p2phi * (mu A - mu B))) by lra.
  apply logistic_complement.
Qed.

(** X5: [win_prob] is above 1/2 exactly when the player's rating is above
    the other's, whatever the two deviations, and it is exactly 1/2 between
    any two players of equal rating. *)
Theorem X5_win_prob_order (self other : Player) :
  exists p : R,
    win_prob other self = (self, Ok p) /\
    (1 / 2 < p <-> getRating other < getRating self) /\
    (getRating other = getRating self -> p = 1 / 2).
Proof.
  eexists. split; [apply win_prob_ok |].
  pose proof (g_val_pos (sqrt (phi self ^ 2 + phi other ^ 2))) as Hg.
  pose proof SCALE_pos as HS.
  unfold getRating, mu_to_rating. split.
  - rewrite logistic_half. split; intros H; nra.
  - intros H. assert (mu other = mu self) by nra.
    replace (mu self - mu other) with 0 by lra.
    rewrite Rmult_0_r, exp_0. lra.
Qed.

(** ** Accessors *)

(** X6: the rating and deviation properties: reading after writing gives
    back the value written, writing one of them leaves the other and the
    volatility alone, and writing back the value just read changes
    nothing. *)
Theorem X6_accessors (self : Player) (r d : R) :
  getRating (fst (setRating r self)) = r /\
  getRd (fst (setRating r self)) = getRd self /\
  vol (fst (setRating r self)) = vol self /\
  getRd (fst (setRd d self)) = d /\
  getRating (fst (setRd d self)) = getRating self /\
  vol (fst (setRd d self)) = vol self /\
  fst (setRating (getRating self) self) = self /\
  fst (setRd (getRd self) self) = self.
Proof.
  pose proof SCALE_neq_0 as HS. destruct self as [m p s].
  unfold setRating, setRd, set_mu, set_phi, getRating, getRd,
    mu_to_rating, rating_to_mu, phi_to_rd, rd_to_phi.
  cbn [fst mu phi vol].
  repeat split; try (field; exact HS); f_equal; field; exact HS.
Qed.

(** ** Idle periods *)

Lemma did_not_compete_n_S (n : nat) :
  forall self : Player,
    did_not_compete_n (S n) self
    = (mkPlayer (mu self) (sqrt (phi self ^ 2 + INR (S n) * vol self ^ 2))
         (vol self), Ok tt).
Proof.
  induction n as [| n IH]; intros self.
  - cbn [did_not_compete_n]. unfold mbind, did_not_compete.
    rewrite _preRatingRD_ok. unfold mret, widen. cbn [INR].
    rewrite Rmult_1_l. reflexivity.
  - change (did_not_compete_n (S (S n)) self)
      with (mbind did_not_compete (fun _ => did_not_compete_n (S n)) self).
    unfold mbind, did_not_compete. rewrite _preRatingRD_ok, IH.
    cbn [mu phi vol]. unfold widen.
    pose proof (sq_nonneg (phi self)). pose proof (sq_nonneg (vol self)).
    rewrite pow2_sqrt by lra.
    rewrite (S_INR (S n)). do 2 f_equal. f_equal. lra.
Qed.

(** X7: any number n >= 1 of consecutive [did_not_compete] calls returns
    normally for every player, whatever the signs of its deviation and
    volatility; the deviation ends as [sqrt (phi^2 + n * vol^2)], which is
    not negative, and the rating and the volatility are as before. *)
Theorem X7_idle_periods (n : nat) (self : Player) :
  exists self' : Player,
    did_not_compete_n (S n) self = (self', Ok tt) /\
    phi self' = sqrt (phi self ^ 2 + INR (S n) * vol self ^ 2) /\
    0 <= phi self' /\
    mu self' = mu self /\ vol self' = vol self.
Proof.
  eexists. split; [apply did_not_compete_n_S |]. cbn [mu phi vol].
  repeat split. apply sqrt_pos.
Qed.

(** ** The aggregation loops on arbitrary lists *)

Lemma var_term_bound (g e : R) :
  0 < g <= 1 -> 0 < e < 1 -> 0 < g ^ 2 * e * (1 - e) <= 1 / 4.
Proof.
  intros Hg He.
  assert (H1 : 0 < g ^ 2 <= 1) by nra.
  assert (H2 : 0 < e * (1 - e) <= 1 / 4).
  { pose proof (sq_nonneg (e - 1 / 2)). split; nra. }
  rewrite Rmult_assoc. set (q := e * (1 - e)) in *. split; nra.
Qed.

Lemma _v_loop_bounds (self : Player) (rl rdl : list R) :
  forall (n k : nat) (s : R),
    (k + n <= length rl)%nat -> (k + n <= length rdl)%nat ->
    exists s' : R,
      for_range (seq k n) (_v_body self rl rdl) s = Ok s' /\
      s <= s' <= s + INR n / 4 /\ ((0 < n)%nat -> s < s').
Proof.
  induction n as [| n IH]; intros k s Hr Hd.
  - exists s. cbn [seq for_range INR]. repeat split; try lra. lia.
  - cbn [seq for_range]. unfold _v_body at 1.
    destruct (index_in rl k ltac:(lia)) as [r ->].
    destruct (index_in rdl k ltac:(lia)) as [d ->]. cbn [bind].
    rewrite _E_ok, _g_ok. cbn [bind].
    pose proof (var_term_bound (g_val d) (E_val (mu self) r d)
                  (conj (g_val_pos d) (g_val_le_1 d)) (E_val_bounds _ _ _))
      as Ht.
    destruct (IH (S k)
                (s + g_val d ^ 2 * E_val (mu self) r d
                     * (1 - E_val (mu self) r d))
                ltac:(lia) ltac:(lia)) as [s' [Hs' [Hb _]]].
    exists s'. split; [exact Hs' |]. rewrite S_INR. split; [lra | intros _; lra].
Qed.

Lemma _v_ok (self : Player) (rl rdl : list R) :
  rl <> [] -> (length rl <= length rdl)%nat ->
  exists v : R,
    _v self rl rdl = Ok v /\ 0 < v /\ 4 / INR (length rl) <= v.
Proof.
  intros Hne Hlen.
  assert (Hn : (0 < length rl)%nat) by (destruct rl; [congruence | cbn; lia]).
  destruct (_v_loop_bounds self rl rdl (length rl) 0 0 ltac:(lia) ltac:(lia))
    as [t [Ht [[_ Hub] Hpos]]].
  specialize (Hpos Hn). unfold _v, range. rewrite Ht. cbn [bind].
  rewrite pydiv_ok by lra. eexists. split; [reflexivity |].
  assert (HN : 0 < INR (length rl)) by (apply lt_0_INR; exact Hn).
  split; [apply Rdiv_lt_0_compat; lra |].
  unfold Rdiv. rewrite Rmult_1_l.
  apply (Rmult_le_reg_r t); [lra |]. rewrite Rinv_l by lra.
  apply (Rmult_le_reg_r (INR (length rl))); [lra |].
  replace (4 * / INR (length rl) * t * INR (length rl))
    with (4 * t * (INR (length rl) * / INR (length rl))) by ring.
  rewrite Rinv_r by lra. lra.
Qed.

(** X8: when the rating list is not empty and the deviation list is at
    least as long, [_v] returns normally and its value is positive and at
    least [4 / n] for [n] games: no period of [n] games estimates a smaller
    variance. *)
Theorem X8_v_lower_bound (self : Player) (rating_list RD_list : list R) :
  rating_list <> [] -> (length rating_list <= length RD_list)%nat ->
  exists v : R,
    _v self rating_list RD_list = Ok v /\
    0 < v /\ 4 / INR (length rating_list) <= v.
Proof. intros Hne Hlen. exact (_v_ok self rating_list RD_list Hne Hlen). Qed.

Lemma X8_v_lower_bound_witness :
  [0; 1] <> [] /\ (length [0; 1] <= length [2; 1; 3])%nat /\
  exists v : R,
    _v default_player [0; 1] [2; 1; 3] = Ok v /\
    0 < v /\ 4 / INR (length [0; 1]) <= v.
Proof.
  assert (Hne : [0; 1] <> []) by discriminate.
  assert (Hlen : (length [0; 1] <= length [2; 1; 3])%nat) by (cbn; lia).
  split; [exact Hne |]. split; [exact Hlen |].
  exact (X8_v_lower_bound default_player [0; 1] [2; 1; 3] Hne Hlen).
Defined.

Lemma index_firstn (l : list R) (n i : nat) :
  (i < n)%nat -> index (firstn n l) i = index l i.
Proof.
  intros Hi. unfold index. rewrite nth_error_firstn.
  apply Nat.ltb_lt in Hi. rewrite Hi. reflexivity.
Qed.

Lemma _v_firstn (self : Player) (rl rdl : list R) :
  _v self rl (firstn (length rl) rdl) = _v self rl rdl.
Proof.
  unfold _v. f_equal. apply for_range_ext. intros i s Hi.
  apply in_seq in Hi. unfold _v_body.
  rewrite !index_firstn by lia. reflexivity.
Qed.

Lemma score_sum_firstn (self : Player) (rl rdl ol : list R) :
  score_sum self rl (firstn (length rl) rdl) (firstn (length rl) ol)
  = score_sum self rl rdl ol.
Proof.
  unfold score_sum. apply for_range_ext. intros i s Hi.
  apply in_seq in Hi. unfold score_body.
  rewrite !index_firstn by lia. reflexivity.
Qed.

Lemma score_sum_ok (self : Player) (rl rdl ol : list R) :
  (length rl <= length rdl)%nat -> (length rl <= length ol)%nat ->
  exists t : R, score_sum self rl rdl ol = Ok t.
Proof.
  intros Hd Ho. unfold score_sum, range.
  assert (H : forall n k s, (k + n <= length rl)%nat ->
             exists t, for_range (seq k n) (score_body self rl rdl ol) s = Ok t).
  { induction n as [| n IH]; intros k s Hk; [eexists; reflexivity |].
    cbn [seq for_range]. unfold score_body at 1.
    destruct (index_in rdl k ltac:(lia)) as [d ->]. cbn [bind].
    rewrite _g_ok. cbn [bind].
    destruct (index_in ol k ltac:(lia)) as [o ->].
    destruct (index_in rl k ltac:(lia)) as [r ->]. cbn [bind].
    rewrite _E_ok. cbn [bind]. apply IH. lia. }
  apply H. lia.
Qed.

Lemma score_sum_short_outcomes (self : Player) (rl rdl ol : list R) :
  (length rl <= length rdl)%nat -> (length ol < length rl)%nat ->
  score_sum self rl rdl ol = Raise IndexError.
Proof.
  intros Hd Ho. unfold score_sum, range.
  assert (H : forall n k s,
             (k <= length ol < k + n)%nat -> (k + n <= length rl)%nat ->
             for_range (seq k n) (score_body self rl rdl ol) s
             = Raise IndexError).
  { induction n as [| n IH]; intros k s Hk Hn; [lia |].
    cbn [seq for_range]. unfold score_body at 1.
    destruct (index_in rdl k ltac:(lia)) as [d ->]. cbn [bind].
    rewrite _g_ok. cbn [bind].
    destruct (Nat.eq_dec k (length ol)) as [-> | Hne].
    - rewrite index_out by lia. reflexivity.
    - destruct (index_in ol k ltac:(lia)) as [o ->].
      destruct (index_in rl k ltac:(lia)) as [r ->]. cbn [bind].
      rewrite _E_ok. cbn [bind]. apply IH; lia. }
  apply H; lia.
Qed.

Lemma pylog_nonpos (x : R) : x <= 0 -> pylog x = Raise ValueError.
Proof.
  intros Hx. unfold pylog.
  destruct (Rle_dec x 0) as [_ | N]; [reflexivity | contradiction].
Qed.

(** What [update_player] does, by the outcomes of [_v] and of the
    solver. *)
Lemma update_player_cases (fuel : nat) (rl rdl ol : list R) (self : Player) :
  match _v self (map rating_to_mu rl) (map rd_to_phi rdl) with
  | Ok v =>
      match _newVol fuel self (map rating_to_mu rl) (map rd_to_phi rdl) ol v with
      | Ok vol' =>
          exists t : R,
            score_sum self (map rating_to_mu rl) (map rd_to_phi rdl) ol = Ok t /\
            0 < v /\ 0 < vol' /\
            update_player fuel rl rdl ol self
            = (let pn := 1 / sqrt (1 / widen (phi self) vol' ^ 2 + 1 / v) in
               mkPlayer (mu self + pn ^ 2 * t) pn vol', Ok tt)
      | Raise e => update_player fuel rl rdl ol self = (self, Raise e)
      | OutOfFuel => update_player fuel rl rdl ol self = (self, OutOfFuel)
      end
  | Raise e => update_player fuel rl rdl ol self = (self, Raise e)
  | OutOfFuel => update_player fuel rl rdl ol self = (self, OutOfFuel)
  end.
Proof.
  unfold update_player, mbind, eval.
  destruct (_v self _ _) as [v | e |] eqn:Ev; try reflexivity.
  destruct (_newVol fuel self _ _ _ v) as [vol' | e |] eqn:En; try reflexivity.
  apply _v_pos in Ev.
  destruct (_newVol_ok_score_sum _ _ _ _ _ _ _ En) as [t Ht].
  apply _newVol_pos in En.
  exists t. repeat split; try assumption.
  unfold set_vol. rewrite _preRatingRD_ok. cbn [mu phi vol].
  rewrite combine_ok by (try apply widen_pos; assumption).
  unfold set_phi. cbn [mu phi vol].
  erewrite score_sum_mu by (cbn [mu]; reflexivity).
  rewrite Ht. unfold set_mu. reflexivity.
Qed.

Lemma update_player_ext (fuel : nat) (rl rdl ol rl2 rdl2 ol2 : list R)
  (self : Player) :
  _v self (map rating_to_mu rl) (map rd_to_phi rdl)
  = _v self (map rating_to_mu rl2) (map rd_to_phi rdl2) ->
  score_sum self (map rating_to_mu rl) (map rd_to_phi rdl) ol
  = score_sum self (map rating_to_mu rl2) (map rd_to_phi rdl2) ol2 ->
  update_player fuel rl rdl ol self = update_player fuel rl2 rdl2 ol2 self.
Proof.
  intros Hv Hs.
  pose proof (update_player_cases fuel rl rdl ol self) as H1.
  pose proof (update_player_cases fuel rl2 rdl2 ol2 self) as H2.
  rewrite Hv in H1.
  destruct (_v self (map rating_to_mu rl2) (map rd_to_phi rdl2)) as [v | e |];
    try congruence.
  rewrite (_newVol_delta_only fuel self _ _ _ (map rating_to_mu rl2)
             (map rd_to_phi rdl2) ol2) in H1
    by (unfold _delta; rewrite Hs; reflexivity).
  destruct (_newVol fuel self _ _ ol2 v) as [vol' | e |]; try congruence.
  destruct H1 as [t1 [Ht1 [_ [_ ->]]]]. destruct H2 as [t2 [Ht2 [_ [_ ->]]]].
  rewrite Hs in Ht1. congruence.
Qed.

(** X9: [update_player] walks [range(len(rating_list))] only: entries of
    the deviation list and of the outcome list beyond the length of the
    rating list are never read, so cutting the two lists to that length
    changes nothing. *)
Theorem X9_surplus_entries_ignored (fuel : nat) (rating_list RD_list
  outcome_list : list R) (self : Player) :
  update_player fuel rating_list
    (firstn (length rating_list) RD_list)
    (firstn (length rating_list) outcome_list) self
  = update_player fuel rating_list RD_list outcome_list self.
Proof.
  apply update_player_ext.
  - rewrite <- firstn_map.
    rewrite <- (length_map rating_to_mu rating_list) at 1.
    apply _v_firstn.
  - rewrite <- firstn_map.
    rewrite <- (length_map rating_to_mu rating_list) at 1 2.
    apply score_sum_firstn.
Qed.

(** ** Exceptions of [update_player] by the shape of its input *)

Lemma _newVol_vol_0 (fuel : nat) (self : Player) (rl rdl ol : list R) (v : R) :
  vol self = 0 -> _newVol fuel self rl rdl ol v = Raise ValueError.
Proof.
  intros H0. unfold _newVol. rewrite H0, pylog_nonpos by lra. reflexivity.
Qed.

Lemma vol_sq_pos (self : Player) : vol self <> 0 -> 0 < vol self ^ 2.
Proof.
  intros H. destruct (Rtotal_order (vol self) 0) as [L | [E | G]];
    [| contradiction |]; nra.
Qed.

Lemma _newVol_short_outcomes (fuel : nat) (self : Player)
  (rl rdl ol : list R) (v : R) :
  vol self <> 0 -> (length rl <= length rdl)%nat ->
  (length ol < length rl)%nat ->
  _newVol fuel self rl rdl ol v = Raise IndexError.
Proof.
  intros Hv Hd Ho. unfold _newVol, _delta.
  rewrite pylog_ok by (now apply vol_sq_pos). cbn [bind].
  rewrite score_sum_short_outcomes by assumption. reflexivity.
Qed.

Lemma _newVol_raises (fuel : nat) (self : Player) (rl rdl ol : list R)
  (v : R) (e : exn) :
  vol self <> 0 -> 0 < v ->
  (length rl <= length rdl)%nat -> (length rl <= length ol)%nat ->
  _newVol fuel self rl rdl ol v = Raise e -> e = ZeroDivisionError.
Proof.
  intros Hvol Hv Hd Ho. unfold _newVol, _delta.
  rewrite pylog_ok by (now apply vol_sq_pos). cbn [bind].
  destruct (score_sum_ok self rl rdl ol Hd Ho) as [t ->]. cbn [bind].
  set (a := ln (vol self ^ 2)). set (delta := v * t).
  pose proof (sq_nonneg (mu self)) as Hm.
  assert (HB : exists B,
             (if Rgt_dec (delta ^ 2) (phi self ^ 2 + v)
              then pylog (delta ^ 2 - phi self ^ 2 - v)
              else k <- bracket_search fuel self delta v a 1 ;;
                   s <- pysqrt (_tau ^ 2) ;; Ok (a - IZR k * s)) = Ok B
             \/ (if Rgt_dec (delta ^ 2) (phi self ^ 2 + v)
                 then pylog (delta ^ 2 - phi self ^ 2 - v)
                 else k <- bracket_search fuel self delta v a 1 ;;
                      s <- pysqrt (_tau ^ 2) ;; Ok (a - IZR k * s))
                = OutOfFuel).
  { destruct (Rgt_dec (delta ^ 2) (phi self ^ 2 + v)) as [G | _].
    - rewrite pylog_ok by lra. eexists. now left.
    - destruct fuel as [| fuel]; [exists 0; now right |].
      rewrite bracket_search_first by lra. cbn [bind].
      rewrite pysqrt_tau. cbn [bind]. eexists. now left. }
  destruct HB as [B [-> | ->]]; cbn [bind]; [| discriminate].
  pose proof (exp_pos a) as Hea. pose proof (exp_pos B) as Heb.
  rewrite !_f_ok by lra. cbn [bind].
  destruct (refine fuel self delta v a a B _ _) as [r | e' |] eqn:Er;
    cbn [bind]; try discriminate.
  intros Hr. inversion Hr. subst e'. eapply refine_raises. exact Er.
Qed.

(** X10: a player whose volatility is 0 cannot be updated: for a non-empty
    rating list with a deviation list at least as long, [update_player]
    raises [ValueError] (the logarithm of 0 in step 1 of the solver) and
    leaves the player as it was. *)
Theorem X10_zero_volatility (fuel : nat) (rating_list RD_list
  outcome_list : list R) (self : Player) :
  vol self = 0 -> rating_list <> [] ->
  (length rating_list <= length RD_list)%nat ->
  update_player fuel rating_list RD_list outcome_list self
  = (self, Raise ValueError).
Proof.
  intros H0 Hne Hlen.
  pose proof (update_player_cases fuel rating_list RD_list outcome_list self)
    as HC.
  destruct (_v_ok self (map rating_to_mu rating_list) (map rd_to_phi RD_list))
    as [v [Hv _]].
  - destruct rating_list; [congruence | discriminate].
  - rewrite !length_map. exact Hlen.
  - rewrite Hv, _newVol_vol_0 in HC by exact H0. exact HC.
Qed.

Lemma X10_zero_volatility_witness :
  vol (__init__ 1500 350 0) = 0 /\ [1400] <> [] /\
  (length [1400] <= length [30])%nat /\
  update_player 5 [1400] [30] [1] (__init__ 1500 350 0)
  = (__init__ 1500 350 0, Raise ValueError).
Proof.
  assert (H0 : vol (__init__ 1500 350 0) = 0) by reflexivity.
  assert (Hne : [1400] <> []) by discriminate.
  assert (Hlen : (length [1400] <= length [30])%nat) by (cbn; lia).
  split; [exact H0 |]. split; [exact Hne |]. split; [exact Hlen |].
  exact (X10_zero_volatility 5 [1400] [30] [1] (__init__ 1500 350 0)
           H0 Hne Hlen).
Defined.

(** X11: with an outcome list shorter than the rating list (the deviation
    list being long enough and the volatility not 0), [update_player] raises
    [IndexError] inside [_delta] and leaves the player as it was. *)
Theorem X11_short_outcome_list (fuel : nat) (rating_list RD_list
  outcome_list : list R) (self : Player) :
  vol self <> 0 ->
  (length rating_list <= length RD_list)%nat ->
  (length outcome_list < length rating_list)%nat ->
  update_player fuel rating_list RD_list outcome_list self
  = (self, Raise IndexError).
Proof.
  intros Hvol Hd Ho.
  pose proof (update_player_cases fuel rating_list RD_list outcome_list self)
    as HC.
  destruct (_v_ok self (map rating_to_mu rating_list) (map rd_to_phi RD_list))
    as [v [Hv _]].
  - destruct rating_list; [cbn in Ho; lia | discriminate].
  - rewrite !length_map. exact Hd.
  - rewrite Hv, _newVol_short_outcomes in HC
      by (rewrite ?length_map; assumption).
    exact HC.
Qed.

Lemma X11_short_outcome_list_witness :
  vol default_player <> 0 /\
  (length [1400; 1550] <= length [30; 100])%nat /\
  (length [1] < length [1400; 1550])%nat /\
  update_player 5 [1400; 1550] [30; 100] [1] default_player
  = (default_player, Raise IndexError).
Proof.
  assert (Hvol : vol default_player <> 0) by (cbn; lra).
  assert (Hd : (length [1400; 1550] <= length [30; 100])%nat) by (cbn; lia).
  assert (Ho : (length [1] < length [1400; 1550])%nat) by (cbn; lia).
  split; [exact Hvol |]. split; [exact Hd |]. split; [exact Ho |].
  exact (X11_short_outcome_list 5 [1400; 1550] [30; 100] [1] default_player
           Hvol Hd Ho).
Defined.

(** X12: on a well-shaped input (a non-empty rating list, the other two
    lists at least as long, volatility not 0) [update_player] raises neither
    [IndexError] nor [ValueError]: it completes, or raises
    [ZeroDivisionError] from the refinement step of the solver, or the
    solver is still looping; in the last two cases the player is as it
    was. *)
Theorem X12_well_shaped_outcomes (fuel : nat) (rating_list RD_list
  outcome_list : list R) (self : Player) :
  vol self <> 0 -> rating_list <> [] ->
  (length rating_list <= length RD_list)%nat ->
  (length rating_list <= length outcome_list)%nat ->
  (exists self', update_player fuel rating_list RD_list outcome_list self
                 = (self', Ok tt)) \/
  update_player fuel rating_list RD_list outcome_list self
  = (self, Raise ZeroDivisionError) \/
  update_player fuel rating_list RD_list outcome_list self
  = (self, OutOfFuel).
Proof.
  intros Hvol Hne Hd Ho.
  pose proof (update_player_cases fuel rating_list RD_list outcome_list self)
    as HC.
  destruct (_v_ok self (map rating_to_mu rating_list) (map rd_to_phi RD_list))
    as [v [Hv [Hpos _]]].
  - destruct rating_list; [congruence | discriminate].
  - rewrite !length_map. exact Hd.
  - rewrite Hv in HC.
    destruct (_newVol fuel self _ _ outcome_list v) as [vol' | e |] eqn:En.
    + left. destruct HC as [t [_ [_ [_ ->]]]]. eauto.
    + right; left. apply _newVol_raises in En;
        rewrite ?length_map; try assumption.
      subst e. exact HC.
    + right; right. exact HC.
Qed.

Lemma X12_well_shaped_outcomes_witness :
  vol default_player <> 0 /\ [1400; 1550] <> [] /\
  (length [1400; 1550] <= length [30; 100])%nat /\
  (length [1400; 1550] <= length [1; 0])%nat /\
  ((exists self', update_player 5 [1400; 1550] [30; 100] [1; 0] default_player
                  = (self', Ok tt)) \/
   update_player 5 [1400; 1550] [30; 100] [1; 0] default_player
   = (default_player, Raise ZeroDivisionError) \/
   update_player 5 [1400; 1550] [30; 100] [1; 0] default_player
   = (default_player, OutOfFuel)).
Proof.
  assert (Hvol : vol default_player <> 0) by (cbn; lra).
  assert (Hne : [1400; 1550] <> []) by discriminate.
  assert (Hd : (length [1400; 1550] <= length [30; 100])%nat) by (cbn; lia).
  assert (Ho : (length [1400; 1550] <= length [1; 0])%nat) by (cbn; lia).
  split; [exact Hvol |]. split; [exact Hne |]. split; [exact Hd |].
  split; [exact Ho |].
  exact (X12_well_shaped_outcomes 5 [1400; 1550] [30; 100] [1; 0]
           default_player Hvol Hne Hd Ho).
Defined.

(** ** What a completed update does to the player *)

Lemma combined_below_widened (pw v : R) :
  0 < pw -> 0 < v ->
  0 < 1 / sqrt (1 / pw ^ 2 + 1 / v) < pw.
Proof.
  intros Hp Hv.
  assert (H2 : 0 < pw ^ 2) by nra.
  assert (Hy : 0 < 1 / v) by (apply Rdiv_lt_0_compat; lra).
  assert (Hi : 0 < / pw) by (now apply Rinv_0_lt_compat).
  assert (Hx : 1 / pw ^ 2 = (/ pw) ^ 2) by (field; lra).
  assert (Hs : / pw < sqrt (1 / pw ^ 2 + 1 / v)).
  { rewrite <- (sqrt_pow2 (/ pw)) at 1 by lra.
    apply sqrt_lt_1_alt. rewrite Hx. pose proof (sq_nonneg (/ pw)). lra. }
  set (q := sqrt (1 / pw ^ 2 + 1 / v)) in *.
  assert (Hq : 0 < q) by lra.
  split; [apply Rdiv_lt_0_compat; lra |].
  apply (Rmult_lt_reg_r q); [exact Hq |].
  unfold Rdiv. rewrite Rmult_assoc, Rinv_l by lra.
  assert (pw * / pw = 1) by (apply Rinv_r; lra). nra.
Qed.

Lemma update_even_win :
  update_player 1 [1500 + SCALE * ln 2] [0] [1] p_even
  = (spec_update p_even [game_win] (exp (ln (vol p_even ^ 2) / 2)), Ok tt).
Proof.
  change (update_player 1 (ratings [game_win]) (rds [game_win])
            (scores [game_win]) p_even
          = (spec_update p_even [game_win] (exp (ln (vol p_even ^ 2) / 2)),
             Ok tt)).
  rewrite update_player_games by discriminate.
  rewrite mu_p_even, v_val_game_win.
  rewrite (_newVol_immediate 0 p_even [game_win] (9 / 2) 3).
  - reflexivity.
  - cbn. lra.
  - lra.
  - rewrite mu_p_even. unfold Rsum. cbn [map fold_right].
    rewrite score_term_game_win. lra.
  - rewrite phi_p_even. cbn [vol p_even __init__]. lra.
Qed.

Lemma E_val_game_loss :
  E_val 0 (rating_to_mu (1500 - SCALE * ln 2)) 0 = 2 / 3.
Proof.
  unfold E_val. rewrite g_val_0.
  replace (rating_to_mu (1500 - SCALE * ln 2)) with (- ln 2)
    by (unfold rating_to_mu; field; apply SCALE_neq_0).
  replace (-1 * 1 * (0 - - ln 2)) with (- ln 2) by lra.
  rewrite exp_Ropp, exp_ln by lra. lra.
Qed.

Lemma score_term_game_loss : score_term 0 game_loss = - (2 / 3).
Proof.
  unfold score_term, game_loss, g_rd, g_score, g_rating. cbn [fst snd].
  rewrite rd_to_phi_0, E_val_game_loss, g_val_0. lra.
Qed.

Lemma v_val_game_loss : v_val 0 [game_loss] = 9 / 2.
Proof.
  unfold v_val, Rsum. cbn [map fold_right].
  unfold var_term, game_loss, g_rd, g_score, g_rating. cbn [fst snd].
  rewrite rd_to_phi_0, E_val_game_loss, g_val_0. lra.
Qed.

Lemma update_even_loss :
  update_player 1 [1500 - SCALE * ln 2] [0] [0] p_even
  = (spec_update p_even [game_loss] (exp (ln (vol p_even ^ 2) / 2)), Ok tt).
Proof.
  change (update_player 1 (ratings [game_loss]) (rds [game_loss])
            (scores [game_loss]) p_even
          = (spec_update p_even [game_loss] (exp (ln (vol p_even ^ 2) / 2)),
             Ok tt)).
  rewrite update_player_games by discriminate.
  rewrite mu_p_even, v_val_game_loss.
  rewrite (_newVol_immediate 0 p_even [game_loss] (9 / 2) (- 3)).
  - reflexivity.
  - cbn. lra.
  - lra.
  - rewrite mu_p_even. unfold Rsum. cbn [map fold_right].
    rewrite score_term_game_loss. lra.
  - rewrite phi_p_even. cbn [vol p_even __init__]. lra.
Qed.

(** X13: whenever [update_player] completes, on any lists and for any
    player, the new volatility is positive and the new deviation is positive
    and strictly below the deviation widened by the new volatility,
    [sqrt (phi^2 + vol'^2)]: game evidence only ever narrows the widened
    deviation. *)
Theorem X13_update_invariant (fuel : nat) (rating_list RD_list
  outcome_list : list R) (self self' : Player) :
  update_player fuel rating_list RD_list outcome_list self = (self', Ok tt) ->
  0 < vol self' /\
  0 < phi self' < sqrt (phi self ^ 2 + vol self' ^ 2).
Proof.
  intros H.
  pose proof (update_player_cases fuel rating_list RD_list outcome_list self)
    as HC.
  destruct (_v self _ _) as [v | e |]; [| congruence | congruence].
  destruct (_newVol fuel self _ _ _ v) as [vol' | e |];
    [| congruence | congruence].
  destruct HC as [t [_ [Hv [Hvol HU]]]]. rewrite HU in H.
  inversion H. cbn [vol phi]. split; [exact Hvol |].
  apply (combined_below_widened (widen (phi self) vol') v);
    [now apply widen_pos | exact Hv].
Qed.

Lemma X13_update_invariant_witness :
  update_player 1 [1500 + SCALE * ln 2] [0] [1] p_even
  = (spec_update p_even [game_win] (exp (ln (vol p_even ^ 2) / 2)), Ok tt) /\
  0 < vol (spec_update p_even [game_win] (exp (ln (vol p_even ^ 2) / 2))) /\
  0 < phi (spec_update p_even [game_win] (exp (ln (vol p_even ^ 2) / 2)))
    < sqrt (phi p_even ^ 2
            + vol (spec_update p_even [game_win]
                     (exp (ln (vol p_even ^ 2) / 2))) ^ 2).
Proof.
  split; [exact update_even_win |].
  exact (X13_update_invariant 1 [1500 + SCALE * ln 2] [0] [1] p_even _
           update_even_win).
Defined.

Lemma score_sum_sign (m : R) (l : list game) (o : R) :
  l <> [] -> (forall x, In x l -> g_score x = o) ->
  (1 <= o -> 0 < Rsum (map (score_term m) l)) /\
  (o <= 0 -> 0 < Rsum (map (fun x => - score_term m x) l)).
Proof.
  intros Hne Ho. split; intros Hb; apply Rsum_pos;
    try (destruct l; [congruence | discriminate]);
    intros y Hy; apply in_map_iff in Hy; destruct Hy as [x [<- Hx]];
    unfold score_term; rewrite (Ho x Hx);
    pose proof (g_val_pos (rd_to_phi (g_rd x)));
    pose proof (E_val_bounds m (rating_to_mu (g_rating x)) (rd_to_phi (g_rd x)));
    nra.
Qed.

Lemma Rsum_opp (f : game -> R) (l : list game) :
  Rsum (map (fun x => - f x) l) = - Rsum (map f l).
Proof.
  unfold Rsum. induction l as [| x l IH]; cbn [map fold_right]; [lra |].
  rewrite IH. lra.
Qed.

Lemma spec_update_mu (self : Player) (l : list game) (vol' : R) :
  l <> [] -> 0 < vol' ->
  exists c : R,
    0 < c /\
    mu (spec_update self l vol')
    = mu self + c * Rsum (map (score_term (mu self)) l).
Proof.
  intros Hl Hv. unfold spec_update. cbv zeta. cbn [mu].
  pose proof (v_val_pos (mu self) l Hl) as Hvv. unfold v_val in Hvv.
  pose proof (widen_pos (phi self) vol' Hv) as Hw. unfold widen in Hw.
  destruct (combined_below_widened _ _ Hw Hvv) as [Hp _].
  eexists. split; [| reflexivity]. nra.
Qed.

(** X14: when every game of a non-empty period is won (score 1) and the
    update completes, the rating is strictly higher than before. *)
Theorem X14_all_wins_raise_rating (fuel : nat) (self self' : Player)
  (l : list game) :
  l <> [] -> (forall x, In x l -> g_score x = 1) ->
  update_player fuel (ratings l) (rds l) (scores l) self = (self', Ok tt) ->
  getRating self < getRating self'.
Proof.
  intros Hne Hall H. rewrite update_player_games in H by exact Hne.
  destruct (_newVol fuel self _ _ _ _) as [vol' | e |] eqn:En;
    [| congruence | congruence].
  apply _newVol_pos in En. injection H as <-. unfold getRating.
  destruct (spec_update_mu self l vol' Hne En) as [c [Hc ->]].
  destruct (score_sum_sign (mu self) l 1 Hne Hall) as [Hs _].
  specialize (Hs ltac:(lra)).
  assert (0 < c * Rsum (map (score_term (mu self)) l))
    by (apply Rmult_lt_0_compat; assumption).
  unfold mu_to_rating. pose proof SCALE_pos. nra.
Qed.

Lemma X14_all_wins_raise_rating_witness :
  [game_win] <> [] /\ (forall x, In x [game_win] -> g_score x = 1) /\
  update_player 1 (ratings [game_win]) (rds [game_win]) (scores [game_win])
    p_even
  = (spec_update p_even [game_win] (exp (ln (vol p_even ^ 2) / 2)), Ok tt) /\
  getRating p_even
  < getRating (spec_update p_even [game_win] (exp (ln (vol p_even ^ 2) / 2))).
Proof.
  assert (Hne : [game_win] <> []) by discriminate.
  assert (Hall : forall x, In x [game_win] -> g_score x = 1).
  { intros x [<- | []]. reflexivity. }
  split; [exact Hne |]. split; [exact Hall |].
  split; [exact update_even_win |].
  exact (X14_all_wins_raise_rating 1 p_even _ [game_win] Hne Hall
           update_even_win).
Defined.

(** X15: when every game of a non-empty period is lost (score 0) and the
    update completes, the rating is strictly lower than before. *)
Theorem X15_all_losses_lower_rating (fuel : nat) (self self' : Player)
  (l : list game) :
  l <> [] -> (forall x, In x l -> g_score x = 0) ->
  update_player fuel (ratings l) (rds l) (scores l) self = (self', Ok tt) ->
  getRating self' < getRating self.
Proof.
  intros Hne Hall H. rewrite update_player_games in H by exact Hne.
  destruct (_newVol fuel self _ _ _ _) as [vol' | e |] eqn:En;
    [| congruence | congruence].
  apply _newVol_pos in En. injection H as <-. unfold getRating.
  destruct (spec_update_mu self l vol' Hne En) as [c [Hc ->]].
  destruct (score_sum_sign (mu self) l 0 Hne Hall) as [_ Hs].
  specialize (Hs ltac:(lra)). rewrite Rsum_opp in Hs.
  assert (0 < c * - Rsum (map (score_term (mu self)) l))
    by (apply Rmult_lt_0_compat; assumption).
  unfold mu_to_rating. pose proof SCALE_pos. nra.
Qed.

Lemma X15_all_losses_lower_rating_witness :
  [game_loss] <> [] /\ (forall x, In x [game_loss] -> g_score x = 0) /\
  update_player 1 (ratings [game_loss]) (rds [game_loss]) (scores [game_loss])
    p_even
  = (spec_update p_even [game_loss] (exp (ln (vol p_even ^ 2) / 2)), Ok tt) /\
  getRating (spec_update p_even [game_loss] (exp (ln (vol p_even ^ 2) / 2)))
  < getRating p_even.
Proof.
  assert (Hne : [game_loss] <> []) by discriminate.
  assert (Hall : forall x, In x [game_loss] -> g_score x = 0).
  { intros x [<- | []]. reflexivity. }
  split; [exact Hne |]. split; [exact Hall |].
  split; [exact update_even_loss |].
  exact (X15_all_losses_lower_rating 1 p_even _ [game_loss] Hne Hall
           update_even_loss).
Defined.

(** X16: a period made only of draws (score 0.5) against opponents of the
    player's own rating leaves the rating as it was, whatever the
    opponents' deviations and whether or not the call completes. *)
Theorem X16_draws_with_equals_keep_rating (fuel : nat) (self : Player)
  (l : list game) :
  (forall x, In x l -> g_rating x = getRating self /\ g_score x = 0.5) ->
  getRating (fst (update_player fuel (ratings l) (rds l) (scores l) self))
  = getRating self.
Proof.
  intros Hall. destruct l as [| x0 l0].
  { cbn [ratings map]. rewrite update_player_empty. reflexivity. }
  set (l := x0 :: l0) in *.
  rewrite update_player_games by discriminate.
  destruct (_newVol fuel self _ _ _ _) as [vol' | e |]; try reflexivity.
  cbn [fst]. unfold getRating. f_equal. unfold spec_update. cbv zeta. cbn [mu].
  assert (Hz : Rsum (map (score_term (mu self)) l) = 0).
  { clearbody l. clear x0 l0. unfold Rsum.
    induction l as [| x l IH]; cbn [map fold_right]; [reflexivity |].
    rewrite IH by (intros y Hy; apply Hall; right; exact Hy).
    destruct (Hall x (or_introl eq_refl)) as [Hr Hs].
    unfold score_term, E_val. rewrite Hr, Hs.
    replace (rating_to_mu (getRating self)) with (mu self)
      by (unfold rating_to_mu, getRating, mu_to_rating; field;
          apply SCALE_neq_0).
    replace (-1 * g_val (rd_to_phi (g_rd x)) * (mu self - mu self)) with 0
      by lra.
    rewrite exp_0. lra. }
  rewrite Hz. lra.
Qed.

Lemma X16_draws_with_equals_keep_rating_witness :
  (forall x, In x [((1500, 350, 0.5) : game)] ->
             g_rating x = getRating default_player /\ g_score x = 0.5) /\
  getRating (fst (update_player 20 [1500] [350] [0.5] default_player))
  = getRating default_player.
Proof.
  assert (H : forall x, In x [((1500, 350, 0.5) : game)] ->
                g_rating x = getRating default_player /\ g_score x = 0.5).
  { intros x [<- | []]. split; [| reflexivity].
    unfold g_rating, getRating, mu_to_rating, default_player, __init__.
    cbn [fst mu]. rewrite rating_to_mu_1500. lra. }
  split; [exact H |].
  exact (X16_draws_with_equals_keep_rating 20 default_player
           [(1500, 350, 0.5)] H).
Defined.

(** ** The step budget of the model *)








